(** * oak [util.ts]: byte helpers, path resolution and the reader-to-stream
    bridge, embedded as Rocq functions, with their properties. *)

From Stdlib Require Import ZArith Lia Bool Ascii String.
From Stdlib Require Import Strings.Byte.
From stdpp Require Import base list.

#[local] Abbreviation length := List.length.

Local Open Scope Z_scope.

(** ** Byte buffers

    A [Uint8Array] is a sequence of bytes. Indexing follows JavaScript:
    an index outside the array reads [undefined] ([None]). *)

Module Bytes.

Abbreviation u8array := (list byte).

Definition HTAB : byte := x09.
Definition SPACE : byte := x20.
Definition CR : byte := x0d.
Definition LF : byte := x0a.

(** [a[i]] for a numeric index. *)
Definition index (a : u8array) (i : Z) : option byte :=
  if i <? 0 then None else a !! Z.to_nat i.

(** [a[i] === b]: [undefined] equals no byte. *)
Definition index_is (a : u8array) (i : Z) (b : byte) : bool :=
  match index a i with
  | Some x => Byte.eqb x b
  | None => false
  end.

Definition byteLength (a : u8array) : Z := Z.of_nat (length a).

(** Relative index of [subarray]/[slice]: a negative index counts from the
    end, and the result is clamped to [0 .. len]. *)
Definition clamp_index (len i : Z) : Z :=
  if i <? 0 then Z.max (len + i) 0 else Z.min i len.

(** [a.subarray(b, e)]; [a.slice(b, e)] has the same contents (it copies,
    [subarray] shares storage, which a value cannot tell apart). *)
Definition subarray (a : u8array) (b e : Z) : u8array :=
  let len := byteLength a in
  let b' := clamp_index len b in
  let e' := clamp_index len e in
  take (Z.to_nat (Z.max (e' - b') 0)) (drop (Z.to_nat b') a).

Definition slice := subarray.

(** [new Uint8Array(n)]: [n] zero bytes. *)
Definition new_u8array (n : nat) : u8array := replicate n x00.

Definition is_lwsp (b : byte) : bool := Byte.eqb b SPACE || Byte.eqb b HTAB.

(** The bytes [skipLWSPChar] copies. *)
Definition keep (b : byte) : bool := negb (is_lwsp b).

(** The [for] loop of [skipLWSPChar]: [n] iterations remain, [i] is the
    read index, [j] the write index into [result]. *)
Fixpoint skip_loop (u8 : u8array) (n i j : nat) (result : u8array)
  : nat * u8array :=
  match n with
  | O => (j, result)
  | S n' =>
      match u8 !! i with
      | Some b =>
          if is_lwsp b then skip_loop u8 n' (S i) j result
          else skip_loop u8 n' (S i) (S j) (<[j := b]> result)
      | None => (j, result)
      end
  end.

Definition skipLWSPChar (u8 : u8array) : u8array :=
  let '(j, result) :=
    skip_loop u8 (length u8) 0 0 (new_u8array (length u8)) in
  slice result 0 (Z.of_nat j).

Definition stripEol (value : u8array) : u8array :=
  if index_is value (byteLength value - 1) LF then
    let drop :=
      if (1 <? byteLength value) && index_is value (byteLength value - 2) CR
      then 2 else 1 in
    subarray value 0 (byteLength value - drop)
  else value.

End Bytes.

(** ** Path resolution ([resolvePath]) *)

Module Path.

Local Open Scope string_scope.

(** What a JavaScript caller can pass for the optional [relativePath]. *)
Inductive jsarg :=
| JUndefined
| JNull
| JString (s : string).

(** The two kinds of exception [resolvePath] throws: a [TypeError], and
    the error built by [createHttpError(status, message?)]. *)
Inductive error :=
| TypeError (message : string)
| HttpError (status : Z) (message : option string).

Definition createHttpError (status : Z) (message : option string) : error :=
  HttpError status message.

Definition result := (error + string)%type.

Definition NUL : ascii := Ascii.zero.

(** [path.includes("\0")] *)
Fixpoint includes_nul (path : string) : bool :=
  match path with
  | EmptyString => false
  | String c rest => Ascii.eqb c NUL || includes_nul rest
  end.

(** The character class [[\\/]]. *)
Definition is_slash (c : ascii) : bool :=
  Ascii.eqb c "\" || Ascii.eqb c "/".

(** [\.\.(?:[\\/]|$)] matched at the head of [s]. *)
Definition dotdot_here (s : string) : bool :=
  match s with
  | String "." (String "." rest) =>
      match rest with
      | EmptyString => true
      | String c _ => is_slash c
      end
  | _ => false
  end.

(** Search for a match of [UP_PATH_REGEXP]; [boundary] says whether the
    current position satisfies [(?:^|[\\/])], that is, it is the start of
    the string or follows a slash. *)
Fixpoint up_path_from (boundary : bool) (s : string) : bool :=
  (boundary && dotdot_here s) ||
  match s with
  | EmptyString => false
  | String c rest => up_path_from (is_slash c) rest
  end.

(** [UP_PATH_REGEXP.test(s)] for [/(?:^|[\\/])\.\.(?:[\\/]|$)/]. *)
Definition UP_PATH_REGEXP_test (s : string) : bool := up_path_from true s.

(** A path begins with a parent-directory segment: [..] followed by the
    end of the path or by a separator (either slash). *)
Definition begins_with_parent (s : string) : bool := dotdot_here s.

Section Resolve.

(** The host path functions imported from [deps.ts]. *)
Variable sep : string.
Variable isAbsolute : string -> bool.
Variable normalize : string -> string.
Variable join : string -> string -> string.

(** The checks on the relative path, in the order the code runs them;
    [None] when the path passes all three. *)
Definition check_path (path : string) : option error :=
  if includes_nul path then
    Some (createHttpError 400 (Some "Malicious Path"))
  else if isAbsolute path then
    Some (createHttpError 400 (Some "Malicious Path"))
  else if UP_PATH_REGEXP_test (normalize ("." ++ sep ++ path)) then
    Some (createHttpError 403 None)
  else None.

Definition resolvePath (rootPath : string) (relativePath : jsarg) : result :=
  (* root is optional: with one argument it is the path *)
  let '(path, root) :=
    match relativePath with
    | JUndefined => (JString rootPath, ".")
    | _ => (relativePath, rootPath)
    end in
  match path with
  | JUndefined | JNull =>
      inl (TypeError "Argument relativePath is required.")
  | JString path =>
      if includes_nul path then
        inl (createHttpError 400 (Some "Malicious Path"))
      else if isAbsolute path then
        inl (createHttpError 400 (Some "Malicious Path"))
      else if UP_PATH_REGEXP_test (normalize ("." ++ sep ++ path)) then
        inl (createHttpError 403 None)
      else inr (normalize (join root path))
  end.

(** The value of the variable [path] the checks run on. *)
Definition effective_path (rootPath : string) (relativePath : jsarg)
  : option string :=
  match relativePath with
  | JUndefined => Some rootPath
  | JNull => None
  | JString p => Some p
  end.

End Resolve.

(** *** A POSIX instance of the host path functions *)

(** Split at every [/]. *)
Fixpoint segments (s : string) : list string :=
  match s with
  | EmptyString => [EmptyString]
  | String c rest =>
      if Ascii.eqb c "/" then EmptyString :: segments rest
      else match segments rest with
           | seg :: more => String c seg :: more
           | [] => [String c EmptyString]
           end
  end.

(** One step of normalization over the stack of kept segments (top
    first): empty and [.] segments are dropped, [..] removes the segment
    before it, or is kept when there is nothing to remove and the path is
    not absolute. *)
Definition push_segment (absolute : bool) (stack : list string) (seg : string)
  : list string :=
  if String.eqb seg "" || String.eqb seg "." then stack
  else if String.eqb seg ".." then
    match stack with
    | top :: below =>
        if String.eqb top ".." then
          (if absolute then stack else seg :: stack)
        else below
    | [] => if absolute then [] else [seg]
    end
  else seg :: stack.

Fixpoint ends_with_slash (s : string) : bool :=
  match s with
  | EmptyString => false
  | String c EmptyString => Ascii.eqb c "/"
  | String _ rest => ends_with_slash rest
  end.

Definition posix_sep : string := "/".

Definition posix_isAbsolute (path : string) : bool :=
  match path with
  | String c _ => Ascii.eqb c "/"
  | EmptyString => false
  end.

(** The last steps of normalization, from the kept segments: they are
    joined by [/]; an empty relative result is [.]; a trailing separator
    and the leading [/] of an absolute path are put back. *)
Definition assemble (absolute trailing : bool) (kept : list string) : string :=
  let body := String.concat "/" kept in
  let body := if String.eqb body "" && negb absolute then "." else body in
  let body := if negb (String.eqb body "") && trailing
              then body ++ "/" else body in
  if absolute then "/" ++ body else body.

(** Modelled from the spec: [isAbsolute], [join], [normalize] and [sep] are
    imported from [deps.ts], which re-exports the host's path library and
    is not among the sources. The spec describes normalization as lexical:
    [.] and [..] segments are resolved and separator runs collapsed without
    touching the filesystem; a relative path keeps the [..] segments that
    climb above its start. This instance is the POSIX syntax ([/] is the
    only separator, a path is absolute when it starts with [/]). *)
Definition posix_normalize (path : string) : string :=
  if String.eqb path "" then "."
  else
    let absolute := posix_isAbsolute path in
    assemble absolute (ends_with_slash path)
      (rev (fold_left (push_segment absolute) (segments path) [])).

(** Modelled from the spec: the join of root and relative path ([deps.ts]
    is not among the sources): the non-empty arguments joined by the
    separator, then normalized; [.] when there is none. *)
Definition posix_join (a b : string) : string :=
  match List.filter (fun s => negb (String.eqb s "")) [a; b] with
  | [] => "."
  | parts => posix_normalize (String.concat "/" parts)
  end.

Definition posix_resolvePath : string -> jsarg -> result :=
  resolvePath posix_sep posix_isAbsolute posix_normalize posix_join.

(** *** Shape of normalized POSIX paths *)

Fixpoint no_slash (s : string) : bool :=
  match s with
  | EmptyString => true
  | String c rest => negb (Ascii.eqb c "/") && no_slash rest
  end.

(** A segment that normalization keeps. *)
Definition clean (seg : string) : Prop :=
  no_slash seg = true /\ seg <> "" /\ seg <> ".".

Definition all_dotdot (l : list string) : bool :=
  forallb (fun s => String.eqb s "..") l.

(** In a stack of kept segments (top first) a [..] has only [..] below
    it, and an absolute path keeps none. *)
Fixpoint dots_below (absolute : bool) (stack : list string) : bool :=
  match stack with
  | [] => true
  | x :: rest =>
      if String.eqb x ".." then negb absolute && all_dotdot rest
      else dots_below absolute rest
  end.

Definition wf_stack (absolute : bool) (stack : list string) : Prop :=
  Forall clean stack /\ dots_below absolute stack = true.

(** *** Segments, for statements about accepted paths *)

(** Split at every slash of either kind, as [UP_PATH_REGEXP] reads them. *)
Fixpoint slash_segments (s : string) : list string :=
  match s with
  | EmptyString => [EmptyString]
  | String c rest =>
      if is_slash c then EmptyString :: slash_segments rest
      else match slash_segments rest with
           | seg :: more => String c seg :: more
           | [] => [String c EmptyString]
           end
  end.

Definition has_dotdot (segs : list string) : bool :=
  existsb (fun seg => String.eqb seg "..") segs.

(** The segments POSIX normalization keeps of [path], first to last. *)
Definition kept (path : string) : list string :=
  rev (fold_left (push_segment (posix_isAbsolute path)) (segments path) []).

End Path.

(** ** The reader-to-stream bridge ([readableStreamFromReader]) *)

Module Bridge.

Import Bytes.

(** What [reader.read(chunk)] settles to: [null], a byte count (together
    with the contents the reader left in [chunk]), or a failure. *)
Inductive read_result (exn : Type) :=
| ReadNull
| ReadCount (chunk : u8array) (n : Z)
| ReadThrows (e : exn).
Arguments ReadNull {exn}.
Arguments ReadCount {exn} chunk n.
Arguments ReadThrows {exn} e.

(** A [Deno.Reader] with state [R]; [close] is present when the reader is
    also a [Deno.Closer]. A call of [close] may throw. *)
Record Reader (exn R : Type) := {
  read : R -> u8array -> read_result exn * R;
  close : option (R -> option exn * R)
}.
Arguments read {exn R} _ _ _.
Arguments close {exn R} _.

(** The stream controller handed to [pull], with state [C]: each method
    may throw. *)
Record Controller (exn C : Type) := {
  enqueue : C -> u8array -> option exn * C;
  end_stream : C -> option exn * C;
  error : C -> exn -> option exn * C
}.
Arguments enqueue {exn C} _ _ _.
Arguments end_stream {exn C} _ _.
Arguments error {exn C} _ _ _.

(** Every call the bridge makes on its two collaborators, in order. *)
Inductive call (exn : Type) :=
| CallRead (capacity : nat)
| CallSourceClose
| CallEnqueue (chunk : u8array)
| CallEnd
| CallError (e : exn).
Arguments CallRead {exn} capacity.
Arguments CallSourceClose {exn}.
Arguments CallEnqueue {exn} chunk.
Arguments CallEnd {exn}.
Arguments CallError {exn} e.

Record world (exn R C : Type) := {
  w_reader : R;
  w_ctrl : C;
  w_calls : list (call exn)
}.
Arguments w_reader {exn R C} _.
Arguments w_ctrl {exn R C} _.
Arguments w_calls {exn R C} _.
Arguments Build_world {exn R C} _ _ _.

(** How a callback finishes: normally, or by throwing (for an [async]
    function: its promise is rejected). *)
Inductive outcome (exn A : Type) :=
| Returns (a : A)
| Throws (e : exn).
Arguments Returns {exn A} a.
Arguments Throws {exn A} e.

Record ReadableStreamFromReaderOptions := {
  autoClose : option bool;
  chunkSize : option nat;
  strategy : option Z
}.

Definition DEFAULT_CHUNK_SIZE : nat := Z.to_nat 16640.

Section Callbacks.

Context {exn R C : Type}.

(** Computations over the world that may throw. *)
Definition M (A : Type) : Type :=
  world exn R C -> outcome exn A * world exn R C.

Definition ret {A} (a : A) : M A := fun w => (Returns a, w).

Definition bind {A B} (m : M A) (k : A -> M B) : M B :=
  fun w =>
    match m w with
    | (Returns a, w') => k a w'
    | (Throws e, w') => (Throws e, w')
    end.

#[local] Notation "x <- m ;; k" := (bind m (fun x => k))
  (at level 100, m at next level, right associativity, only parsing).
#[local] Notation "m ;; k" := (bind m (fun _ => k))
  (at level 100, right associativity, only parsing).

(** [try { m } catch (e) { handler e }] *)
Definition try_catch {A} (m : M A) (handler : exn -> M A) : M A :=
  fun w =>
    match m w with
    | (Returns a, w') => (Returns a, w')
    | (Throws e, w') => handler e w'
    end.

Definition lift_unit (r : option exn) : outcome exn unit :=
  match r with
  | None => Returns tt
  | Some e => Throws e
  end.

Definition log (c : call exn) (w : world exn R C) : list (call exn) :=
  w_calls w ++ [c].

Variable reader : Reader exn R.
Variable controller : Controller exn C.

(** [await reader.read(chunk)]: the count and the filled chunk, or
    [None] for [null]. *)
Definition reader_read (chunk : u8array) : M (option (u8array * Z)) :=
  fun w =>
    let '(r, s) := read reader (w_reader w) chunk in
    let w' := Build_world s (w_ctrl w) (log (CallRead (length chunk)) w) in
    match r with
    | ReadNull => (Returns None, w')
    | ReadCount filled n => (Returns (Some (filled, n)), w')
    | ReadThrows e => (Throws e, w')
    end.

(** [reader.close()], for the [close] method found by [isCloser]. *)
Definition reader_close (close_fn : R -> option exn * R) : M unit :=
  fun w =>
    let '(r, s) := close_fn (w_reader w) in
    (lift_unit r, Build_world s (w_ctrl w) (log CallSourceClose w)).

Definition controller_enqueue (chunk : u8array) : M unit :=
  fun w =>
    let '(r, c) := enqueue controller (w_ctrl w) chunk in
    (lift_unit r, Build_world (w_reader w) c (log (CallEnqueue chunk) w)).

Definition controller_close : M unit :=
  fun w =>
    let '(r, c) := end_stream controller (w_ctrl w) in
    (lift_unit r, Build_world (w_reader w) c (log CallEnd w)).

Definition controller_error (e : exn) : M unit :=
  fun w =>
    let '(r, c) := error controller (w_ctrl w) e in
    (lift_unit r, Build_world (w_reader w) c (log (CallError e) w)).

Definition isCloser : bool :=
  match close reader with
  | Some _ => true
  | None => false
  end.

(** [if (isCloser(reader) && cond) { reader.close(); }] *)
Definition close_if_closer (cond : bool) : M unit :=
  match close reader with
  | Some close_fn => if cond then reader_close close_fn else ret tt
  | None => ret tt
  end.

(** The underlying source built by [readableStreamFromReader]. *)
Record UnderlyingSource := {
  pull : M unit;
  cancel : M unit;
  type : string;
  queuing : option Z
}.

Definition readableStreamFromReader
    (options : ReadableStreamFromReaderOptions) : UnderlyingSource :=
  let autoClose := default true (autoClose options) in
  let chunkSize := default DEFAULT_CHUNK_SIZE (chunkSize options) in
  {| pull :=
       let chunk := new_u8array chunkSize in
       try_catch
         (read <- reader_read chunk ;;
          match read with
          | None =>
              close_if_closer autoClose ;;
              controller_close
          | Some (filled, read) =>
              controller_enqueue (subarray filled 0 read)
          end)
         (fun e =>
            controller_error e ;;
            close_if_closer true);
     cancel := close_if_closer autoClose;
     type := "bytes";
     queuing := strategy options |}.

(** *** [pull] cut at its [await]

    [pull] is an [async] function: the stream's call runs it up to
    [await reader.read(chunk)], and the rest runs when the read settles;
    other callbacks can run in between. *)

(** The call [reader.read(chunk)] as it is issued. *)
Definition reader_call (chunk : u8array) : M unit :=
  fun w =>
    (Returns tt,
     Build_world (w_reader w) (w_ctrl w) (log (CallRead (length chunk)) w)).

(** What the pending read settles to, taken from the reader in the state
    it is in by then. *)
Definition reader_settle (chunk : u8array) : M (option (u8array * Z)) :=
  fun w =>
    let '(r, s) := read reader (w_reader w) chunk in
    let w' := Build_world s (w_ctrl w) (w_calls w) in
    match r with
    | ReadNull => (Returns None, w')
    | ReadCount filled n => (Returns (Some (filled, n)), w')
    | ReadThrows e => (Throws e, w')
    end.

(** [pull] up to the [await]: the chunk is allocated and the read issued. *)
Definition pull_start (options : ReadableStreamFromReaderOptions) : M unit :=
  let chunkSize := default DEFAULT_CHUNK_SIZE (chunkSize options) in
  let chunk := new_u8array chunkSize in
  reader_call chunk.

(** [pull] from the [await] on, for the chunk it allocated. *)
Definition pull_resume (options : ReadableStreamFromReaderOptions)
    (chunk : u8array) : M unit :=
  let autoClose := default true (autoClose options) in
  try_catch
    (read <- reader_settle chunk ;;
     match read with
     | None =>
         close_if_closer autoClose ;;
         controller_close
     | Some (filled, read) =>
         controller_enqueue (subarray filled 0 read)
     end)
    (fun e =>
       controller_error e ;;
       close_if_closer true).

End Callbacks.

(** *** The platform's byte stream *)

(** The stream is constructed with [type: "bytes"], so the controller
    handed to [pull] is the platform's byte stream controller. The platform
    is not part of the repository; what follows is the part of its
    behaviour the callbacks can observe, after the Streams standard
    (the [enqueue], [close] and [error] methods of
    [ReadableByteStreamController], and the cancel steps of
    [ReadableStream]). *)
Inductive status (exn : Type) :=
| Readable
| Closed
| Errored (e : exn).
Arguments Readable {exn}.
Arguments Closed {exn}.
Arguments Errored {exn} e.

(** The state of the stream: its status, whether a close was requested
    while chunks were still queued, and the chunks enqueued and not yet
    taken by the consumer. *)
Record stream (exn : Type) := {
  st_status : status exn;
  st_close_requested : bool;
  st_queue : list u8array
}.
Arguments st_status {exn} _.
Arguments st_close_requested {exn} _.
Arguments st_queue {exn} _.
Arguments Build_stream {exn} _ _ _.

(** The stream takes chunks: it is readable and no close was requested. *)
Definition accepting {exn} (st : stream exn) : bool :=
  match st_status st with
  | Readable => negb (st_close_requested st)
  | _ => false
  end.

(** The stream ended without error: it is closed, or closes as soon as its
    queue is drained. *)
Definition ended {exn} (st : stream exn) : bool :=
  match st_status st with
  | Readable => st_close_requested st
  | Closed => true
  | Errored _ => false
  end.

(** The effect of an error on the stream: a readable stream becomes
    errored and drops its queue; a closed or errored stream stays as it
    is. *)
Definition errored {exn} (st : stream exn) (e : exn) : stream exn :=
  match st_status st with
  | Readable => Build_stream (Errored e) (st_close_requested st) []
  | _ => st
  end.

(** The byte stream controller; [type_error] is the [TypeError] it throws.
    [enqueue] throws on a zero-length chunk, after a close request, and on a
    stream that is not readable; [close] throws after a close request and on
    a stream that is not readable, and otherwise closes the stream, at once
    when nothing is queued; [error] never throws. *)
Definition byte_controller {exn} (type_error : exn)
  : Controller exn (stream exn) :=
  {| enqueue := fun st chunk =>
       match chunk with
       | [] => (Some type_error, st)
       | _ =>
           if accepting st
           then (None,
                 Build_stream Readable false (st_queue st ++ [chunk]))
           else (Some type_error, st)
       end;
     end_stream := fun st =>
       if accepting st then
         match st_queue st with
         | [] => (None, Build_stream Closed false [])
         | q => (None, Build_stream Readable true q)
         end
       else (Some type_error, st);
     error := fun st e => (None, errored st e) |}.

(** *** A scripted reader, for concrete runs *)

Inductive step :=
| Yield (data : u8array)
| Fail (e : string).

(** Writes [data] at the start of [chunk], as far as it fits. *)
Definition fill (chunk data : u8array) : u8array :=
  take (length chunk) data ++ drop (length data) chunk.

(** A reader that plays a script, one step per read, then reports
    end-of-data; [closing] is its [close] method, if it has one, which
    throws when it holds an error. *)
Definition scripted (closing : option (option string))
  : Reader string (list step) :=
  {| read := fun s chunk =>
       match s with
       | [] => (ReadNull, [])
       | Yield data :: rest =>
           (ReadCount (fill chunk data)
              (Z.of_nat (Nat.min (length data) (length chunk))), rest)
       | Fail e :: rest => (ReadThrows e, rest)
       end;
     close := option_map (fun r => fun s => (r, s)) closing |}.

(** The settings a bridge runs with, defaults applied. *)
Definition auto_close (options : ReadableStreamFromReaderOptions) : bool :=
  default true (autoClose options).

Definition capacity (options : ReadableStreamFromReaderOptions) : nat :=
  default DEFAULT_CHUNK_SIZE (chunkSize options).

(** The buffer each [pull] hands to the reader. *)
Definition fresh_chunk (options : ReadableStreamFromReaderOptions)
  : u8array :=
  new_u8array (capacity options).

(** Classifiers of calls, for counting them in a trace. *)
Definition is_source_close {exn} (c : call exn) : bool :=
  match c with CallSourceClose => true | _ => false end.

Definition is_enqueue {exn} (c : call exn) : bool :=
  match c with CallEnqueue _ => true | _ => false end.

Definition is_end {exn} (c : call exn) : bool :=
  match c with CallEnd => true | _ => false end.

Definition is_error {exn} (c : call exn) : bool :=
  match c with CallError _ => true | _ => false end.

Definition count {exn} (p : call exn -> bool) (calls : list (call exn))
  : nat :=
  length (List.filter p calls).

(** *** Runs *)

Definition is_read {exn} (c : call exn) : bool :=
  match c with CallRead _ => true | _ => false end.



(** What happens around the callbacks: the stream calls [pull], the
    pending read settles, the consumer takes a queued chunk, the consumer
    cancels. *)
Inductive move := StartPull | SettleRead | TakeChunk | Cancel.



(** A bridge at work: the world of the callbacks, the chunk of the pull
    whose read is pending, and how the callbacks that finished ended. *)
Record run_state (exn R : Type) := {
  rs_world : world exn R (stream exn);
  rs_pending : option u8array;
  rs_outcomes : list (outcome exn unit)
}.
Arguments rs_world {exn R} _.
Arguments rs_pending {exn R} _.
Arguments rs_outcomes {exn R} _.
Arguments Build_run_state {exn R} _ _ _.

Definition with_stream {exn R} (st : stream exn)
    (w : world exn R (stream exn)) : world exn R (stream exn) :=
  Build_world (w_reader w) st (w_calls w).

Section Run.

Context {exn R : Type}.
Variable type_error : exn.
Variable reader : Reader exn R.
Variable options : ReadableStreamFromReaderOptions.

(** The bridge over the platform's byte stream. *)
Definition byte_bridge : @UnderlyingSource exn R (stream exn) :=
  readableStreamFromReader reader (byte_controller type_error) options.

(** One move, as the platform makes it. The stream calls [pull] only when
    no pull is under way and the stream takes chunks (whether it does so on
    the consumer's demand or to fill its queue up to the strategy's mark is
    left open). When the read settles the rest of [pull] runs, whatever
    happened in between; a pull that ends by throwing errors the stream. A
    cancellation closes a readable stream, drops its queue and runs
    [cancel]. A move the platform cannot make leaves everything as it is. *)
Definition exec (m : move) (s : run_state exn R) : run_state exn R :=
  let w := rs_world s in
  match m with
  | StartPull =>
      match rs_pending s with
      | Some _ => s
      | None =>
          if accepting (w_ctrl w) then
            Build_run_state
              (pull_start options w).2
              (Some (fresh_chunk options)) (rs_outcomes s)
          else s
      end
  | SettleRead =>
      match rs_pending s with
      | None => s
      | Some chunk =>
          let '(o, w') :=
            pull_resume reader (byte_controller type_error) options chunk w in
          let w'' :=
            match o with
            | Returns _ => w'
            | Throws e => with_stream (errored (w_ctrl w') e) w'
            end in
          Build_run_state w'' None (rs_outcomes s ++ [o])
      end
  | TakeChunk =>
      let st := w_ctrl w in
      match st_status st, st_queue st with
      | Readable, _ :: rest =>
          let st' :=
            match rest with
            | [] =>
                if st_close_requested st
                then Build_stream Closed true []
                else Build_stream Readable false []
            | _ => Build_stream Readable (st_close_requested st) rest
            end in
          Build_run_state (with_stream st' w) (rs_pending s) (rs_outcomes s)
      | _, _ => s
      end
  | Cancel =>
      let st := w_ctrl w in
      match st_status st with
      | Readable =>
          let w1 :=
            with_stream (Build_stream Closed (st_close_requested st) []) w in
          let '(o, w') := cancel byte_bridge w1 in
          Build_run_state w' (rs_pending s) (rs_outcomes s ++ [o])
      | _ => s
      end
  end.

Definition run (moves : list move) (s : run_state exn R) : run_state exn R :=
  fold_left (fun s m => exec m s) moves s.

End Run.

(** A freshly constructed bridge over a reader in state [r]. *)
Definition start {exn R} (r : R) : run_state exn R :=
  Build_run_state (Build_world r (Build_stream Readable false []) []) None [].

Definition pending_reads (pending : option u8array) : nat :=
  match pending with
  | Some _ => 1%nat
  | None => 0%nat
  end.

(** So far the callbacks have only read and enqueued: nothing was closed,
    ended or errored, and every read that settled led to an enqueue call. *)
Definition untouched {exn R} (s : run_state exn R) : Prop :=
  let calls := w_calls (rs_world s) in
  count is_end calls = 0%nat
  /\ count is_error calls = 0%nat
  /\ count is_source_close calls = 0%nat
  /\ (count is_enqueue calls + pending_reads (rs_pending s))%nat
     = count is_read calls.


(** *** Callbacks run in any order, over any controller *)

(** The callbacks with nothing assumed of the platform: any controller,
    and between two callbacks any change of the controller's state. *)
Inductive free_move (C : Type) :=
| FreeStart
| FreeSettle
| FreeCancel
| Platform (f : C -> C).
Arguments FreeStart {C}.
Arguments FreeSettle {C}.
Arguments FreeCancel {C}.
Arguments Platform {C} f.

Section FreeRun.

Context {exn R C : Type}.
Variable reader : Reader exn R.
Variable controller : Controller exn C.
Variable options : ReadableStreamFromReaderOptions.

Definition free_exec (m : free_move C)
    (s : world exn R C * option u8array) : world exn R C * option u8array :=
  let '(w, pending) := s in
  match m with
  | FreeStart =>
      match pending with
      | Some _ => s
      | None =>
          ((pull_start options w).2,
           Some (fresh_chunk options))
      end
  | FreeSettle =>
      match pending with
      | None => s
      | Some chunk =>
          ((pull_resume reader controller options chunk w).2, None)
      end
  | FreeCancel =>
      ((cancel (readableStreamFromReader reader controller options) w).2,
       pending)
  | Platform f =>
      (Build_world (w_reader w) (f (w_ctrl w)) (w_calls w), pending)
  end.

Definition free_run (moves : list (free_move C))
    (s : world exn R C * option u8array) : world exn R C * option u8array :=
  fold_left (fun s m => free_exec m s) moves s.

End FreeRun.

End Bridge.

(** ** Query extraction ([getQuery]) *)

Module Query.

Local Open Scope string_scope.

(** The own string-valued properties of a plain object, and the entries of
    a [URLSearchParams] (where a key may repeat), in order. The place
    JavaScript gives integer-like keys when it lists an object is not
    modelled: the properties below are about lookups. *)
Abbreviation entries := (list (string * string)).

(** [o[k]] for an own property. *)
Fixpoint obj_get (o : entries) (k : string) : option string :=
  match o with
  | [] => None
  | (k', v) :: rest => if String.eqb k' k then Some v else obj_get rest k
  end.

(** The property [k] of [o] replaced in place, or added at the end. *)
Fixpoint obj_put (o : entries) (k v : string) : entries :=
  match o with
  | [] => [(k, v)]
  | (k', v') :: rest =>
      if String.eqb k' k then (k', v) :: rest else (k', v') :: obj_put rest k v
  end.

(** What [getQuery] reads of a context: [ctx.params] (read only when the
    context is a router context) and [ctx.request.url.searchParams]. *)
Record Context := {
  params : entries;
  searchParams : entries
}.

Record GetParamsOptions := {
  mergeParams : bool;
  asMap : bool
}.

(** The result: a record object, or the [Map] built from its entries. *)
Inductive query :=
| AsRecord (o : entries)
| AsMap (m : entries).

Definition contents (q : query) : entries :=
  match q with AsRecord o => o | AsMap m => m end.

Section GetQuery.

(** Whether [Object.prototype] has the [__proto__] accessor depends on the
    runtime: Deno removes it, other runtimes keep it. *)
Variable proto_accessor : bool.

(** [isRouterContext] is imported from [util.ts]; the version of that
    file at hand does not define it. *)
Variable isRouterContext : Context -> bool.

(** [o[k] = v] on an object created by [{}]. Where the accessor exists,
    the key [__proto__] reaches its setter, which ignores a string, so no
    property is created; elsewhere [__proto__] is a key like any other. *)
Definition obj_set (o : entries) (k v : string) : entries :=
  if proto_accessor && String.eqb k "__proto__" then o else obj_put o k v.

(** [Object.assign(target, source)]: one assignment per property of
    [source], in order. *)
Definition Object_assign (target source : entries) : entries :=
  fold_left (fun o kv => obj_set o kv.1 kv.2) source target.

Definition getQuery (ctx : Context) (options : GetParamsOptions) : query :=
  let result := [] in
  let result :=
    if mergeParams options && isRouterContext ctx
    then Object_assign result (params ctx) else result in
  let result :=
    fold_left (fun o kv => obj_set o kv.1 kv.2) (searchParams ctx) result in
  if asMap options then AsMap result else AsRecord result.

(** The assignments [getQuery] makes, in order. *)
Definition assignments (ctx : Context) (options : GetParamsOptions)
  : entries :=
  (if mergeParams options && isRouterContext ctx then params ctx else [])
  ++ searchParams ctx.

End GetQuery.

(** The value of the last entry for [k]. *)
Definition last_value (l : entries) (k : string) : option string :=
  obj_get (rev l) k.

End Query.

(** ** HTML sniffing ([isHtml]) *)

Module Html.

Local Open Scope string_scope.

(** The code units below 256 that [\s] matches: tab to carriage return,
    space, and the no-break space. *)
Definition is_space (c : ascii) : bool :=
  let n := nat_of_ascii c in
  ((9 <=? n)%nat && (n <=? 13)%nat) || (n =? 32)%nat || (n =? 160)%nat.

(** Canonical form of a character under the [i] flag: an ASCII letter in
    upper case, every other character itself. *)
Definition fold_case (c : ascii) : ascii :=
  let n := nat_of_ascii c in
  if (97 <=? n)%nat && (n <=? 122)%nat then ascii_of_nat (n - 32) else c.

(** The literal [lit] (given in canonical form) matched, ignoring case, at
    the head of [s]. *)
Fixpoint starts_with_ci (lit s : string) : bool :=
  match lit, s with
  | EmptyString, _ => true
  | String a lit', String b s' =>
      Ascii.eqb a (fold_case b) && starts_with_ci lit' s'
  | String _ _, EmptyString => false
  end.

(** [\s*], consumed greedily. *)
Fixpoint skip_spaces (s : string) : string :=
  match s with
  | String c rest => if is_space c then skip_spaces rest else s
  | EmptyString => s
  end.

(** [/^\s*<(?:!DOCTYPE|html|body)/i.test(value)], for a string of code
    units below 256. *)
Definition isHtml (value : string) : bool :=
  match skip_spaces value with
  | String "<" rest =>
      starts_with_ci "!DOCTYPE" rest || starts_with_ci "HTML" rest
      || starts_with_ci "BODY" rest
  | _ => false
  end.

Definition all_spaces (s : string) : bool :=
  forallb is_space (list_ascii_of_string s).

(** [s] with its ASCII letters in upper case. *)
Fixpoint upper (s : string) : string :=
  match s with
  | EmptyString => EmptyString
  | String c rest => String (fold_case c) (upper rest)
  end.

End Html.

(** ** Status classification ([isErrorStatus], [isRedirectStatus]) *)

Module StatusClass.

(** The members of the [Status] enum of [deps.ts] that [util.ts] names;
    [OtherStatus] stands for any member it does not name. *)
Inductive Status :=
| BadRequest | Unauthorized | PaymentRequired | Forbidden | NotFound
| MethodNotAllowed | NotAcceptable | ProxyAuthRequired | RequestTimeout
| Conflict | Gone | LengthRequired | PreconditionFailed
| RequestEntityTooLarge | RequestURITooLong | UnsupportedMediaType
| RequestedRangeNotSatisfiable | ExpectationFailed | Teapot
| MisdirectedRequest | UnprocessableEntity | Locked | FailedDependency
| UpgradeRequired | PreconditionRequired | TooManyRequests
| RequestHeaderFieldsTooLarge | UnavailableForLegalReasons
| InternalServerError | NotImplemented | BadGateway | ServiceUnavailable
| GatewayTimeout | HTTPVersionNotSupported | VariantAlsoNegotiates
| InsufficientStorage | LoopDetected | NotExtended
| NetworkAuthenticationRequired
| MultipleChoices | MovedPermanently | Found | SeeOther | UseProxy
| TemporaryRedirect | PermanentRedirect
| OtherStatus.

Definition Status_eq_dec (a b : Status) : {a = b} + {a <> b}.
Proof. decide equality. Defined.

(** [list.includes(value)] *)
Definition includes (l : list Status) (value : Status) : bool :=
  existsb (fun s => if Status_eq_dec s value then true else false) l.

Definition error_statuses : list Status :=
  [ BadRequest; Unauthorized; PaymentRequired; Forbidden; NotFound;
    MethodNotAllowed; NotAcceptable; ProxyAuthRequired; RequestTimeout;
    Conflict; Gone; LengthRequired; PreconditionFailed;
    RequestEntityTooLarge; RequestURITooLong; UnsupportedMediaType;
    RequestedRangeNotSatisfiable; ExpectationFailed; Teapot;
    MisdirectedRequest; UnprocessableEntity; Locked; FailedDependency;
    UpgradeRequired; PreconditionRequired; TooManyRequests;
    RequestHeaderFieldsTooLarge; UnavailableForLegalReasons;
    InternalServerError; NotImplemented; BadGateway; ServiceUnavailable;
    GatewayTimeout; HTTPVersionNotSupported; VariantAlsoNegotiates;
    InsufficientStorage; LoopDetected; NotExtended;
    NetworkAuthenticationRequired ].

Definition redirect_statuses : list Status :=
  [ MultipleChoices; MovedPermanently; Found; SeeOther; UseProxy;
    TemporaryRedirect; PermanentRedirect ].

Definition isErrorStatus (value : Status) : bool :=
  includes error_statuses value.

Definition isRedirectStatus (value : Status) : bool :=
  includes redirect_statuses value.

End StatusClass.

(** * Properties *)

(** ** Byte helpers *)

Section BytesFacts.

Import Bytes.

Lemma subarray_prefix (a : u8array) (j : nat) :
  subarray a 0 (Z.of_nat j) = take j a.
Proof.
  unfold subarray, clamp_index, byteLength.
  destruct (0 <? 0) eqn:E0; [discriminate|].
  destruct (Z.of_nat j <? 0) eqn:Ej; [apply Z.ltb_lt in Ej; lia|].
  replace (Z.min 0 (Z.of_nat (length a))) with 0 by lia.
  rewrite Z.sub_0_r. simpl (Z.to_nat 0). rewrite drop_0.
  destruct (Nat.le_gt_cases j (length a)) as [Hle|Hgt].
  - f_equal. lia.
  - rewrite (take_ge a j) by lia. apply take_ge. lia.
Qed.

Lemma skip_loop_spec (u8 : u8array) :
  forall n i j result,
    (i + n = length u8)%nat -> (j <= i)%nat ->
    length result = length u8 ->
    take (skip_loop u8 n i j result).1 (skip_loop u8 n i j result).2
    = take j result ++ List.filter keep (drop i u8).
Proof.
  induction n as [|n IH]; intros i j result Hin Hj Hlen; cbn [skip_loop].
  - rewrite drop_ge by lia. simpl. by rewrite app_nil_r.
  - destruct (u8 !! i) as [b|] eqn:Hb;
      [|apply lookup_ge_None in Hb; lia].
    rewrite (drop_S u8 b i Hb). cbn [List.filter].
    replace (keep b) with (negb (is_lwsp b)) by reflexivity.
    destruct (is_lwsp b) eqn:Eb; cbn [negb].
    + apply IH; lia.
    + rewrite IH by (rewrite ?length_insert; lia).
      rewrite (take_S_r _ j b).
      * rewrite take_insert_ge by lia. by rewrite <- app_assoc.
      * apply list_lookup_insert_eq. lia.
Qed.

Lemma skipLWSPChar_filter (u8 : u8array) :
  skipLWSPChar u8 = List.filter keep u8.
Proof.
  unfold skipLWSPChar, slice.
  pose proof (skip_loop_spec u8 (length u8) 0 0 (new_u8array (length u8)))
    as H.
  destruct (skip_loop u8 (length u8) 0 0 (new_u8array (length u8)))
    as [j result].
  rewrite subarray_prefix. simpl in H.
  rewrite H by (unfold new_u8array; rewrite ?length_replicate; lia).
  by rewrite drop_0.
Qed.

Lemma filter_keep_all (u8 : u8array) :
  (forall b, In b u8 -> is_lwsp b = false) -> List.filter keep u8 = u8.
Proof.
  induction u8 as [|b u8 IH]; intros H; simpl; [done|].
  unfold keep at 1. rewrite (H b) by (by left). simpl.
  f_equal. apply IH. intros c Hc. apply H. by right.
Qed.

Lemma filter_keep_none (u8 : u8array) :
  (forall b, In b u8 -> is_lwsp b = true) -> List.filter keep u8 = [].
Proof.
  induction u8 as [|b u8 IH]; intros H; simpl; [done|].
  unfold keep at 1. rewrite (H b) by (by left). simpl.
  apply IH. intros c Hc. apply H. by right.
Qed.

Lemma is_lwsp_spec (b : byte) :
  is_lwsp b = true <-> b = x20 \/ b = x09.
Proof.
  unfold is_lwsp, SPACE, HTAB. rewrite orb_true_iff.
  split; (intros [H|H]; [left|right]);
    (apply Byte.byte_dec_bl in H || apply Byte.byte_dec_lb); exact H.
Qed.

Lemma subarray_take (a : u8array) (e : Z) :
  0 <= e -> subarray a 0 e = take (Z.to_nat e) a.
Proof.
  intros He. rewrite <- (Z2Nat.id e He) at 1. apply subarray_prefix.
Qed.

Lemma index_app_r (a b : u8array) (k : Z) :
  0 <= k -> index (a ++ b) (byteLength a + k) = index b k.
Proof.
  intros Hk. unfold index, byteLength.
  destruct (Z.of_nat (length a) + k <? 0) eqn:E1;
    [apply Z.ltb_lt in E1; lia|].
  destruct (k <? 0) eqn:E2; [apply Z.ltb_lt in E2; lia|].
  rewrite lookup_app_r by lia. f_equal. lia.
Qed.

Lemma index_last (a : u8array) : index a (byteLength a - 1) = last a.
Proof.
  destruct a as [|x a _] using rev_ind; [reflexivity|].
  rewrite last_snoc. unfold byteLength. rewrite length_app. simpl length.
  replace (Z.of_nat (length a + 1) - 1) with (byteLength a + 0)
    by (unfold byteLength; lia).
  by rewrite index_app_r.
Qed.

Lemma index_is_last (a : u8array) (b : byte) :
  index_is a (byteLength a - 1) b = true <-> last a = Some b.
Proof.
  unfold index_is. rewrite index_last. destruct (last a) as [x|].
  - split; intros H.
    + by apply Byte.byte_dec_bl in H as ->.
    + injection H as ->. by apply Byte.byte_dec_lb.
  - split; discriminate.
Qed.

Lemma stripEol_crlf (body : u8array) : stripEol (body ++ [CR; LF]) = body.
Proof.
  unfold stripEol.
  assert (Hlen : byteLength (body ++ [CR; LF]) = byteLength body + 2)
    by (unfold byteLength; rewrite length_app; simpl; lia).
  rewrite Hlen.
  replace (byteLength body + 2 - 1) with (byteLength body + 1) by lia.
  replace (byteLength body + 2 - 2) with (byteLength body + 0) by lia.
  unfold index_is. rewrite !index_app_r by lia. simpl.
  replace (1 <? byteLength body + 2) with true
    by (symmetry; apply Z.ltb_lt; unfold byteLength; lia).
  simpl. rewrite subarray_take by (unfold byteLength; lia).
  replace (Z.to_nat (byteLength body + 2 - 2)) with (length body)
    by (unfold byteLength; lia).
  by rewrite take_app_length.
Qed.

Lemma stripEol_keeps (value : u8array) :
  last value <> Some LF -> stripEol value = value.
Proof.
  intros H. unfold stripEol.
  destruct (index_is value (byteLength value - 1) LF) eqn:E; [|done].
  by apply index_is_last in E.
Qed.

Lemma stripEol_shortens (value : u8array) :
  last value = Some LF -> (length (stripEol value) < length value)%nat.
Proof.
  intros H. unfold stripEol.
  apply index_is_last in H as E. rewrite E.
  assert (Hpos : 1 <= byteLength value).
  { destruct value; [discriminate|]. unfold byteLength. simpl length. lia. }
  destruct ((1 <? byteLength value)
            && index_is value (byteLength value - 2) CR) eqn:E2.
  - apply andb_true_iff in E2 as [E2 _]. apply Z.ltb_lt in E2.
    rewrite subarray_take by lia. rewrite length_take.
    unfold byteLength in *. lia.
  - rewrite subarray_take by lia. rewrite length_take.
    unfold byteLength in *. lia.
Qed.

Lemma index_app_l (a b : u8array) (i : Z) :
  i < byteLength a -> index (a ++ b) i = index a i.
Proof.
  intros Hi. unfold index, byteLength in *.
  destruct (i <? 0) eqn:E; [reflexivity|]. apply Z.ltb_ge in E.
  apply lookup_app_l. lia.
Qed.

Lemma stripEol_lf (body : u8array) :
  last body <> Some CR -> stripEol (body ++ [LF]) = body.
Proof.
  intros Hcr. unfold stripEol.
  assert (Hlen : byteLength (body ++ [LF]) = byteLength body + 1)
    by (unfold byteLength; rewrite length_app; simpl; lia).
  assert (E : index_is (body ++ [LF]) (byteLength (body ++ [LF]) - 1) LF
              = true)
    by (apply index_is_last, last_snoc).
  rewrite E, Hlen.
  assert (E2 : index_is (body ++ [LF]) (byteLength body + 1 - 2) CR = false).
  { unfold index_is. rewrite index_app_l by lia.
    replace (byteLength body + 1 - 2) with (byteLength body - 1) by lia.
    rewrite index_last. destruct (last body) as [x|]; [|reflexivity].
    destruct (Byte.eqb x CR) eqn:Ex; [|reflexivity].
    apply Byte.byte_dec_bl in Ex. by subst x. }
  rewrite E2, andb_false_r.
  rewrite subarray_take by (unfold byteLength; lia).
  replace (Z.to_nat (byteLength body + 1 - 1)) with (length body)
    by (unfold byteLength; lia).
  by rewrite take_app_length.
Qed.

End BytesFacts.

(** C8: for every buffer, [skipLWSPChar] (the spec's stripLeadingBlanks)
    returns the buffer with every space (0x20) and horizontal-tab (0x09)
    byte removed from the whole of it, the other bytes kept in their order;
    a buffer without space or tab bytes comes back equal, and an all-blank
    buffer comes back empty. *)
Theorem C8_skipLWSPChar_removes_every_blank :
  forall u8 : list byte,
    Bytes.skipLWSPChar u8
    = List.filter (fun b => negb (Byte.eqb b x20 || Byte.eqb b x09)) u8
    /\ ((forall b, In b u8 -> b <> x20 /\ b <> x09) ->
        Bytes.skipLWSPChar u8 = u8)
    /\ ((forall b, In b u8 -> b = x20 \/ b = x09) ->
        Bytes.skipLWSPChar u8 = []).
Proof.
  intros u8. rewrite skipLWSPChar_filter. split; [reflexivity|]. split.
  - intros H. apply filter_keep_all. intros b Hb.
    destruct (Bytes.is_lwsp b) eqn:E; [|reflexivity].
    apply is_lwsp_spec in E. destruct (H b Hb). tauto.
  - intros H. apply filter_keep_none. intros b Hb.
    apply is_lwsp_spec. auto.
Qed.

Lemma C8_witness :
  Bytes.skipLWSPChar [x61; x62] = [x61; x62]
  /\ Bytes.skipLWSPChar [x20; x09; x20] = [].
Proof.
  split.
  - apply (proj1 (proj2 (C8_skipLWSPChar_removes_every_blank [x61; x62]))).
    intros b [<-|[<-|[]]]; split; discriminate.
  - apply (proj2 (proj2
             (C8_skipLWSPChar_removes_every_blank [x20; x09; x20]))).
    intros b [<-|[<-|[<-|[]]]]; auto.
Defined.

(** C9 (as amended): for every buffer ending in carriage-return (0x0D)
    then line-feed (0x0A), one application of [stripEol] (the spec's
    stripLineEnding) removes exactly those two trailing bytes and leaves the
    interior untouched. A second application returns its input unchanged
    when the interior does not itself end in a line-feed; when it does, the
    second application strips one further line ending from the interior:
    its trailing line-feed, together with the carriage-return before it
    when there is one. *)
Theorem C9_stripEol_crlf_once :
  forall body : list byte,
    Bytes.stripEol (body ++ [x0d; x0a]) = body
    /\ (last body <> Some x0a ->
        Bytes.stripEol (Bytes.stripEol (body ++ [x0d; x0a]))
        = Bytes.stripEol (body ++ [x0d; x0a]))
    /\ (forall inner : list byte,
          body = inner ++ [x0d; x0a] ->
          Bytes.stripEol (Bytes.stripEol (body ++ [x0d; x0a])) = inner)
    /\ (forall inner : list byte,
          body = inner ++ [x0a] -> last inner <> Some x0d ->
          Bytes.stripEol (Bytes.stripEol (body ++ [x0d; x0a])) = inner)
    /\ (last body = Some x0a ->
        Bytes.stripEol (Bytes.stripEol (body ++ [x0d; x0a]))
        <> Bytes.stripEol (body ++ [x0d; x0a])).
Proof.
  intros body. pose proof (stripEol_crlf body) as H1.
  unfold Bytes.CR, Bytes.LF in H1.
  rewrite H1. split; [reflexivity|]. split; [|split; [|split]].
  - intros H. by apply stripEol_keeps.
  - intros inner ->. apply stripEol_crlf.
  - intros inner -> H. by apply stripEol_lf.
  - intros H Heq. apply stripEol_shortens in H. rewrite Heq in H. lia.
Qed.

Lemma C9_witness :
  Bytes.stripEol (Bytes.stripEol ([x61] ++ [x0d; x0a]))
  = Bytes.stripEol ([x61] ++ [x0d; x0a])
  /\ Bytes.stripEol (Bytes.stripEol ([x61; x0d; x0a] ++ [x0d; x0a])) = [x61]
  /\ Bytes.stripEol (Bytes.stripEol ([x61; x0a] ++ [x0d; x0a])) = [x61]
  /\ Bytes.stripEol (Bytes.stripEol ([x0a] ++ [x0d; x0a]))
     <> Bytes.stripEol ([x0a] ++ [x0d; x0a]).
Proof.
  split; [|split; [|split]].
  - apply (proj1 (proj2 (C9_stripEol_crlf_once [x61]))).
    simpl. discriminate.
  - apply (proj1 (proj2 (proj2 (C9_stripEol_crlf_once [x61; x0d; x0a])))
             [x61]).
    reflexivity.
  - apply (proj1 (proj2 (proj2 (proj2
             (C9_stripEol_crlf_once [x61; x0a])))) [x61]).
    + reflexivity.
    + simpl. discriminate.
  - apply (proj2 (proj2 (proj2 (proj2 (C9_stripEol_crlf_once [x0a]))))).
    reflexivity.
Defined.

(** C9 as stated fails: the buffer 0A 0D 0A ends in CR LF, the first
    application leaves 0A, and the second application does not return that
    unchanged: it strips it to the empty buffer. *)
Lemma C9_counterexample :
  Bytes.stripEol [x0a; x0d; x0a] = [x0a]
  /\ Bytes.stripEol (Bytes.stripEol [x0a; x0d; x0a]) = []
  /\ Bytes.stripEol (Bytes.stripEol [x0a; x0d; x0a])
     <> Bytes.stripEol [x0a; x0d; x0a].
Proof.
  split; [reflexivity|]. split; [reflexivity|]. discriminate.
Qed.

(** ** Path resolution *)

Section ResolveFacts.

Import Path.
Local Open Scope string_scope.

Variable sep : string.
Variable isAbsolute : string -> bool.
Variable normalize : string -> string.
Variable join : string -> string -> string.

Let resolve := resolvePath sep isAbsolute normalize join.
Let check := check_path sep isAbsolute normalize.

(** With two arguments the outcome is the first failing check on the
    relative path, and the normalized join when there is none. *)
Lemma resolvePath_string (root p : string) :
  resolve root (JString p)
  = match check p with
    | Some e => inl e
    | None => inr (normalize (join root p))
    end.
Proof.
  unfold resolve, check, resolvePath, check_path.
  destruct (includes_nul p); [reflexivity|].
  destruct (isAbsolute p); [reflexivity|].
  destruct (UP_PATH_REGEXP_test _); reflexivity.
Qed.

(** With one argument it is the relative path, and the root is [.]. *)
Lemma resolvePath_single (p : string) :
  resolve p JUndefined = resolve "." (JString p).
Proof. reflexivity. Qed.

Lemma resolvePath_null (root : string) :
  resolve root JNull = inl (TypeError "Argument relativePath is required.").
Proof. reflexivity. Qed.

Lemma check_path_cases (p : string) :
  (check p = Some (HttpError 400 (Some "Malicious Path"))
   /\ (includes_nul p = true \/ isAbsolute p = true))
  \/ (check p = Some (HttpError 403 None)
      /\ includes_nul p = false /\ isAbsolute p = false
      /\ UP_PATH_REGEXP_test (normalize ("." ++ sep ++ p)) = true)
  \/ (check p = None
      /\ includes_nul p = false /\ isAbsolute p = false
      /\ UP_PATH_REGEXP_test (normalize ("." ++ sep ++ p)) = false).
Proof.
  unfold check, check_path, createHttpError.
  destruct (includes_nul p); [left; auto|].
  destruct (isAbsolute p); [left; auto|].
  destruct (UP_PATH_REGEXP_test _) eqn:E; [right; left|right; right]; auto.
Qed.

Lemma resolvePath_passes (root p : string) :
  includes_nul p = false -> isAbsolute p = false ->
  UP_PATH_REGEXP_test (normalize ("." ++ sep ++ p)) = false ->
  resolve root (JString p) = inr (normalize (join root p)).
Proof.
  intros H1 H2 H3. unfold resolve, resolvePath. by rewrite H1, H2, H3.
Qed.

Lemma resolvePath_effective (root : string) (arg : jsarg) (p : string) :
  effective_path root arg = Some p ->
  exists root', resolve root arg = resolve root' (JString p).
Proof.
  destruct arg; simpl; intros H; try discriminate; injection H as ->.
  - exists ".". reflexivity.
  - exists root. reflexivity.
Qed.

End ResolveFacts.

Lemma begins_with_parent_matches (s : string) :
  Path.begins_with_parent s = true -> Path.UP_PATH_REGEXP_test s = true.
Proof.
  unfold Path.begins_with_parent, Path.UP_PATH_REGEXP_test. intros H.
  destruct s; simpl in *; [discriminate|]. by rewrite H.
Qed.

(** C1 (as amended): for every relative path that contains no NUL byte and
    is not absolute, and whose normalized form (after prefixing with [.]
    and the separator) begins with a parent-directory segment, [resolvePath]
    fails with the 403-class error, for every root. The check reads the
    normalized form, not the raw string: a raw path with a [..] segment that
    normalization removes is resolved. *)
Theorem C1_parent_segment_is_forbidden :
  (forall sep isAbsolute normalize join (root p : string),
      Path.includes_nul p = false ->
      isAbsolute p = false ->
      Path.begins_with_parent (normalize ("." ++ sep ++ p)%string) = true ->
      Path.resolvePath sep isAbsolute normalize join root (Path.JString p)
      = inl (Path.HttpError 403 None))
  /\ (Path.UP_PATH_REGEXP_test "a/../b" = true
      /\ Path.posix_resolvePath "root" (Path.JString "a/../b")
         = inr "root/b"%string).
Proof.
  split; [|split; reflexivity].
  intros sep isAbsolute normalize join root p H1 H2 H3.
  apply begins_with_parent_matches in H3.
  unfold Path.resolvePath. by rewrite H1, H2, H3.
Qed.

Lemma C1_witness :
  Path.posix_resolvePath "root" (Path.JString "../secret")
  = inl (Path.HttpError 403 None)
  /\ Path.posix_resolvePath "root" (Path.JString "a/../../secret")
     = inl (Path.HttpError 403 None)
  /\ Path.posix_resolvePath "root" (Path.JString "a/b/../../../secret")
     = inl (Path.HttpError 403 None).
Proof.
  pose proof (proj1 C1_parent_segment_is_forbidden Path.posix_sep
                Path.posix_isAbsolute Path.posix_normalize Path.posix_join
                "root"%string) as H.
  split; [|split]; apply H; reflexivity.
Defined.

(** C1 as stated fails: the relative path [../] followed by a NUL byte
    normalizes (behind [./]) to a path that begins with a parent-directory
    segment, and [resolvePath] rejects it with the 400-class error of the
    NUL check, which runs first, not with the 403-class one. *)
Lemma C1_counterexample :
  Path.begins_with_parent
    (Path.posix_normalize
       ("." ++ Path.posix_sep ++ ("../" ++ String Path.NUL ""))%string)
  = true
  /\ Path.posix_resolvePath "root"
       (Path.JString ("../" ++ String Path.NUL ""))
     = inl (Path.HttpError 400 (Some "Malicious Path"%string))
  /\ Path.posix_resolvePath "root"
       (Path.JString ("../" ++ String Path.NUL ""))
     <> inl (Path.HttpError 403 None).
Proof.
  split; [reflexivity|]. split; [reflexivity|]. discriminate.
Qed.

(** C2 (as amended): [resolvePath] raises the 400-class error, carrying
    the message "Malicious Path", exactly when the relative path is present
    and contains a NUL byte or is absolute in the host syntax, whatever the
    root; the only other error of the error-construction facility it raises
    is the 403-class one with the default message; a missing ([null])
    relative path raises a [TypeError] instead. [resolvePath] is a pure
    function: it decides all of this without any I/O. *)
Theorem C2_malicious_path_is_400 :
  forall sep isAbsolute normalize join (root : string) (arg : Path.jsarg),
    (Path.resolvePath sep isAbsolute normalize join root arg
     = inl (Path.HttpError 400 (Some "Malicious Path"%string))
     <-> exists p, Path.effective_path root arg = Some p
                /\ (Path.includes_nul p = true \/ isAbsolute p = true))
    /\ (forall status message,
          Path.resolvePath sep isAbsolute normalize join root arg
          = inl (Path.HttpError status message) ->
          (status = 400 /\ message = Some "Malicious Path"%string)
          \/ (status = 403 /\ message = None))
    /\ (Path.effective_path root arg = None ->
        Path.resolvePath sep isAbsolute normalize join root arg
        = inl (Path.TypeError "Argument relativePath is required.")).
Proof.
  intros sep isAbsolute normalize join root arg.
  assert (Hstr : forall r p,
    (Path.resolvePath sep isAbsolute normalize join r (Path.JString p)
     = inl (Path.HttpError 400 (Some "Malicious Path"%string))
     <-> (Path.includes_nul p = true \/ isAbsolute p = true))
    /\ (forall status message,
          Path.resolvePath sep isAbsolute normalize join r (Path.JString p)
          = inl (Path.HttpError status message) ->
          (status = 400 /\ message = Some "Malicious Path"%string)
          \/ (status = 403 /\ message = None))).
  { intros r p. rewrite resolvePath_string.
    destruct (check_path_cases sep isAbsolute normalize p)
      as [[-> H]|[[-> (H1 & H2 & H3)]|[-> (H1 & H2 & H3)]]].
    - split; [tauto|]. intros s m [= <- <-]. auto.
    - split.
      + split; [discriminate|]. intros [H|H]; congruence.
      + intros s m [= <- <-]. auto.
    - split.
      + split; [discriminate|]. intros [H|H]; congruence.
      + discriminate. }
  destruct arg as [| |p].
  - destruct (Hstr "."%string root) as [H1 H2].
    rewrite resolvePath_single. split; [|split].
    + rewrite H1. simpl. split.
      * intros H. exists root. auto.
      * intros (p & [= <-] & H). exact H.
    + exact H2.
    + discriminate.
  - rewrite resolvePath_null. split; [|split].
    + split; [discriminate|]. intros (p & H & _). discriminate.
    + discriminate.
    + reflexivity.
  - destruct (Hstr root p) as [H1 H2]. split; [|split].
    + rewrite H1. simpl. split.
      * intros H. exists p. auto.
      * intros (q & [= <-] & H). exact H.
    + exact H2.
    + discriminate.
Qed.

Lemma C2_witness :
  Path.posix_resolvePath "root" (Path.JString ("a" ++ String Path.NUL "b"))
  = inl (Path.HttpError 400 (Some "Malicious Path"%string))
  /\ Path.posix_resolvePath "root" (Path.JString "/etc/passwd")
     = inl (Path.HttpError 400 (Some "Malicious Path"%string))
  /\ Path.posix_resolvePath "root" Path.JNull
     = inl (Path.TypeError "Argument relativePath is required.").
Proof.
  split; [|split].
  - apply (proj1 (C2_malicious_path_is_400 Path.posix_sep
             Path.posix_isAbsolute Path.posix_normalize Path.posix_join
             "root"%string (Path.JString ("a" ++ String Path.NUL "b")))).
    eexists. split; [reflexivity|]. left. reflexivity.
  - apply (proj1 (C2_malicious_path_is_400 Path.posix_sep
             Path.posix_isAbsolute Path.posix_normalize Path.posix_join
             "root"%string (Path.JString "/etc/passwd"))).
    eexists. split; [reflexivity|]. right. reflexivity.
  - apply (proj2 (proj2 (C2_malicious_path_is_400 Path.posix_sep
             Path.posix_isAbsolute Path.posix_normalize Path.posix_join
             "root"%string Path.JNull))).
    reflexivity.
Defined.

(** C2 as stated fails twice: the 400-class error of a NUL-containing path
    carries the message "Malicious Path", not "Malformed Path"; and a
    missing relative path raises a [TypeError], not a 400-class error. *)
Lemma C2_counterexample :
  Path.posix_resolvePath "root" (Path.JString ("a" ++ String Path.NUL "b"))
  = inl (Path.HttpError 400 (Some "Malicious Path"%string))
  /\ Path.posix_resolvePath "root"
       (Path.JString ("a" ++ String Path.NUL "b"))
     <> inl (Path.HttpError 400 (Some "Malformed Path"%string))
  /\ Path.posix_resolvePath "root" Path.JNull
     = inl (Path.TypeError "Argument relativePath is required.")
  /\ Path.posix_resolvePath "root" Path.JNull
     <> inl (Path.HttpError 400 (Some "Malformed Path"%string)).
Proof.
  split; [reflexivity|]. split; [discriminate|].
  split; [reflexivity|]. discriminate.
Qed.

(** ** The POSIX path functions: normalization is idempotent *)

Section PosixFacts.

Import Path.
Local Open Scope string_scope.

#[local] Arguments String.eqb : simpl never.

Lemma segments_nonempty s : segments s <> [].
Proof.
  destruct s as [|c s]; simpl; [discriminate|].
  destruct (Ascii.eqb c "/"); [discriminate|].
  destruct (segments s); discriminate.
Qed.

Lemma segments_app_slash a b :
  segments (a ++ String "/" b) = (segments a ++ segments b)%list.
Proof.
  induction a as [|c a IH]; simpl; [reflexivity|].
  destruct (Ascii.eqb c "/"); [by rewrite IH|].
  rewrite IH. pose proof (segments_nonempty a) as Hne.
  destruct (segments a) as [|seg more]; [done|reflexivity].
Qed.

Lemma segments_no_slash s : no_slash s = true -> segments s = [s].
Proof.
  induction s as [|c s IH]; simpl; [reflexivity|].
  intros H. apply andb_true_iff in H as [Hc Hs].
  apply negb_true_iff in Hc. rewrite Hc, (IH Hs). reflexivity.
Qed.

Lemma segments_all_no_slash s : Forall (fun seg => no_slash seg = true) (segments s).
Proof.
  induction s as [|c s IH]; simpl; [by repeat constructor|].
  destruct (Ascii.eqb c "/") eqn:Ec; [by constructor|].
  destruct (segments s) as [|seg more].
  - repeat constructor. simpl. by rewrite Ec.
  - inversion IH; subst. constructor; [|done]. simpl. by rewrite Ec.
Qed.

Lemma segments_concat l :
  l <> [] -> Forall (fun seg => no_slash seg = true) l ->
  segments (String.concat "/" l) = l.
Proof.
  induction l as [|x l IH]; [done|]. intros _ H. inversion H; subst.
  destruct l as [|y l].
  - simpl. by apply segments_no_slash.
  - change (String.concat "/" (x :: y :: l)) with (x ++ String "/" (String.concat "/" (y :: l))).
    rewrite segments_app_slash, IH by done. by rewrite segments_no_slash.
Qed.

Lemma all_dotdot_below absolute l :
  absolute = false -> all_dotdot l = true -> dots_below absolute l = true.
Proof.
  intros ->. induction l as [|x l IH]; simpl; [done|].
  intros H. apply andb_true_iff in H as [Hx Hl].
  by rewrite Hx, Hl.
Qed.

Lemma push_segment_wf absolute stack seg :
  no_slash seg = true -> wf_stack absolute stack ->
  wf_stack absolute (push_segment absolute stack seg).
Proof.
  intros Hs [Hc Hd]. unfold push_segment.
  destruct (String.eqb seg "") eqn:E1; [done|].
  destruct (String.eqb seg ".") eqn:E2; [done|]. simpl.
  apply String.eqb_neq in E1, E2.
  destruct (String.eqb seg "..") eqn:E3.
  - apply String.eqb_eq in E3. subst seg.
    destruct stack as [|top below].
    + destruct absolute; [done|]. split; [|done].
      by repeat constructor.
    + simpl in Hd. destruct (String.eqb top "..") eqn:Et.
      * destruct absolute; [done|]. simpl in Hd. split.
        -- constructor; [|done]. by repeat split.
        -- simpl. by rewrite Et, Hd.
      * inversion Hc; subst. by split.
  - split.
    + constructor; [|done]. by repeat split.
    + simpl. by rewrite E3.
Qed.

Lemma fold_push_wf absolute segs stack :
  Forall (fun seg => no_slash seg = true) segs -> wf_stack absolute stack ->
  wf_stack absolute (fold_left (push_segment absolute) segs stack).
Proof.
  revert stack. induction segs as [|seg segs IH]; intros stack Hs Hw; [done|].
  inversion Hs; subst. simpl. apply IH; [done|]. by apply push_segment_wf.
Qed.

Lemma push_segment_replay absolute x rest :
  wf_stack absolute (x :: rest) ->
  push_segment absolute rest x = x :: rest /\ wf_stack absolute rest.
Proof.
  intros [Hc Hd]. inversion Hc as [|? ? (Hn & Hne & Hnd) Hrest]; subst.
  unfold push_segment.
  apply String.eqb_neq in Hne, Hnd. rewrite Hne, Hnd. simpl in *.
  destruct (String.eqb x "..") eqn:Ex.
  - apply andb_true_iff in Hd as [Ha Hall].
    apply negb_true_iff in Ha. subst absolute.
    split; [|split; [done|by apply all_dotdot_below]].
    destruct rest as [|top below]; [done|].
    simpl in Hall. apply andb_true_iff in Hall as [Ht _].
    by rewrite Ht.
  - by split.
Qed.

Lemma fold_push_replay absolute stack :
  wf_stack absolute stack ->
  fold_left (push_segment absolute) (rev stack) [] = stack.
Proof.
  induction stack as [|x rest IH]; intros Hw; [done|].
  destruct (push_segment_replay absolute x rest Hw) as [Hp Hrest].
  simpl. rewrite fold_left_app. simpl. by rewrite IH.
Qed.

Lemma no_slash_not_absolute x rest :
  no_slash x = true -> x <> "" -> posix_isAbsolute (x ++ rest) = false.
Proof.
  destruct x as [|c x]; [done|]. simpl. intros H _.
  apply andb_true_iff in H as [H _]. by apply negb_true_iff in H.
Qed.

Lemma ends_with_slash_app a b :
  b <> "" -> ends_with_slash (a ++ b) = ends_with_slash b.
Proof.
  intros Hb. induction a as [|c a IH]; [reflexivity|].
  simpl. destruct (a ++ b) eqn:E; [|exact IH].
  destruct a; simpl in E; [done|discriminate].
Qed.

Lemma no_slash_no_trailing s : no_slash s = true -> ends_with_slash s = false.
Proof.
  induction s as [|c s IH]; [reflexivity|]. simpl. intros H.
  apply andb_true_iff in H as [Hc Hs]. apply negb_true_iff in Hc.
  destruct s; [exact Hc|]. by apply IH.
Qed.

Lemma concat_cons2 x y l :
  String.concat "/" (x :: y :: l) = x ++ String "/" (String.concat "/" (y :: l)).
Proof. reflexivity. Qed.

Lemma append_nil_r s : s ++ "" = s.
Proof. induction s as [|c s IH]; simpl; [done|by rewrite IH]. Qed.

Lemma append_assoc a b c : (a ++ b) ++ c = a ++ (b ++ c).
Proof. induction a as [|x a IH]; simpl; [done|by rewrite IH]. Qed.

Lemma concat_head x l :
  exists rest, String.concat "/" (x :: l) = x ++ rest.
Proof.
  destruct l as [|y l].
  - exists "". simpl. by rewrite append_nil_r.
  - eexists. apply concat_cons2.
Qed.

Lemma concat_no_trailing l :
  l <> [] -> Forall clean l -> ends_with_slash (String.concat "/" l) = false.
Proof.
  induction l as [|x l IH]; [done|]. intros _ H.
  inversion H as [|? ? (Hn & Hne & _) Hl]; subst.
  destruct l as [|y l].
  - simpl. by apply no_slash_no_trailing.
  - rewrite concat_cons2.
    change (x ++ String "/" (String.concat "/" (y :: l)))
      with (x ++ ("/" ++ String.concat "/" (y :: l))).
    rewrite <- append_assoc.
    destruct (concat_head y l) as [rest Hrest].
    inversion Hl as [|? ? (_ & Hy & _) _]; subst.
    rewrite ends_with_slash_app; [by apply IH|].
    rewrite Hrest. destruct y; [done|discriminate].
Qed.

Lemma posix_normalize_assemble path :
  path <> "" ->
  posix_normalize path
  = assemble (posix_isAbsolute path) (ends_with_slash path)
      (rev (fold_left (push_segment (posix_isAbsolute path))
              (segments path) [])).
Proof.
  intros H. apply String.eqb_neq in H. unfold posix_normalize. by rewrite H.
Qed.

Lemma fold_push_empty_first absolute segs :
  fold_left (push_segment absolute) ("" :: segs) []
  = fold_left (push_segment absolute) segs [].
Proof. reflexivity. Qed.

Lemma fold_push_empty_last absolute segs :
  fold_left (push_segment absolute) (segs ++ [""]) []
  = fold_left (push_segment absolute) segs [].
Proof. rewrite fold_left_app. reflexivity. Qed.

Lemma assemble_normal absolute trailing stack :
  wf_stack absolute stack ->
  posix_normalize (assemble absolute trailing (rev stack))
  = assemble absolute trailing (rev stack).
Proof.
  intros Hw. destruct (rev stack) as [|x l] eqn:Ek.
  - destruct absolute, trailing; reflexivity.
  - assert (Hs : stack = rev (x :: l)) by (by rewrite <- Ek, rev_involutive).
    assert (Hc : Forall clean (x :: l)).
    { rewrite <- Ek. apply Forall_rev. apply Hw. }
    assert (Hns : Forall (fun seg => no_slash seg = true) (x :: l)).
    { eapply Forall_impl; [exact Hc|]. by intros ? (? & _). }
    pose proof (segments_concat (x :: l) ltac:(done) Hns) as Hseg.
    pose proof (concat_no_trailing (x :: l) ltac:(done) Hc) as Htr.
    destruct (concat_head x l) as [rest Hrest].
    inversion Hc as [|? ? (Hxn & Hxe & _) _]; subst x0 l0.
    assert (Hne : String.concat "/" (x :: l) <> "").
    { rewrite Hrest. destruct x; [done|discriminate]. }
    assert (Hab : forall t, posix_isAbsolute (String.concat "/" (x :: l) ++ t) = false).
    { intros t. rewrite Hrest, append_assoc. by apply no_slash_not_absolute. }
    pose proof (fold_push_replay absolute stack Hw) as Hrep.
    rewrite Ek in Hrep.
    set (body := String.concat "/" (x :: l)) in *.
    assert (Hq : assemble absolute trailing (x :: l)
                 = (if absolute then "/" else "") ++ body
                   ++ (if trailing then "/" else "")).
    { unfold assemble. fold body. apply String.eqb_neq in Hne.
      cbv zeta. rewrite Hne. cbn [andb]. rewrite Hne.
      destruct trailing, absolute; simpl; by rewrite ?append_nil_r. }
    rewrite Hq.
    rewrite posix_normalize_assemble
      by (destruct absolute; [discriminate|];
          simpl; destruct body; [done|discriminate]).
    assert (Ha : posix_isAbsolute
                   ((if absolute then "/" else "") ++ body
                    ++ (if trailing then "/" else "")) = absolute).
    { destruct absolute; [reflexivity|]. simpl. apply Hab. }
    assert (Ht : ends_with_slash
                   ((if absolute then "/" else "") ++ body
                    ++ (if trailing then "/" else "")) = trailing).
    { destruct trailing.
      - rewrite <- append_assoc. by rewrite ends_with_slash_app.
      - rewrite append_nil_r. rewrite ends_with_slash_app by done. exact Htr. }
    assert (Hsg : fold_left (push_segment absolute)
                    (segments ((if absolute then "/" else "") ++ body
                               ++ (if trailing then "/" else ""))) []
                  = stack).
    { assert (Hb : segments (body ++ (if trailing then "/" else ""))
                   = ((x :: l) ++ (if trailing then [""] else []))%list).
      { destruct trailing.
        - change (body ++ "/") with (body ++ String "/" "").
          by rewrite segments_app_slash, Hseg.
        - by rewrite append_nil_r, app_nil_r. }
      destruct absolute.
      - change (segments ("/" ++ body ++ (if trailing then "/" else "")))
          with ("" :: segments (body ++ (if trailing then "/" else ""))).
        rewrite fold_push_empty_first, Hb.
        destruct trailing; [rewrite fold_push_empty_last|rewrite app_nil_r];
          exact Hrep.
      - change ("" ++ body ++ (if trailing then "/" else ""))
          with (body ++ (if trailing then "/" else "")).
        rewrite Hb.
        destruct trailing; [rewrite fold_push_empty_last|rewrite app_nil_r];
          exact Hrep. }
    rewrite Ha, Ht, Hsg, Ek. exact Hq.
Qed.

Lemma posix_normalize_idempotent path :
  posix_normalize (posix_normalize path) = posix_normalize path.
Proof.
  destruct (String.eqb path "") eqn:E.
  - apply String.eqb_eq in E. by subst path.
  - apply String.eqb_neq in E. rewrite (posix_normalize_assemble path E).
    apply assemble_normal. apply fold_push_wf.
    + apply segments_all_no_slash.
    + by split.
Qed.

End PosixFacts.

Lemma posix_join_empty (root : string) :
  Path.posix_join root ""
  = if String.eqb root "" then "."%string else Path.posix_normalize root.
Proof.
  unfold Path.posix_join. simpl.
  destruct (String.eqb root "") eqn:E; simpl; reflexivity.
Qed.

Lemma posix_resolvePath_empty (root : string) :
  Path.posix_resolvePath root (Path.JString "")
  = inr (Path.posix_normalize (Path.posix_join root "")).
Proof. reflexivity. Qed.

(** The empty relative path under the POSIX path functions: the result
    is the root in normal form. *)
Lemma posix_resolvePath_empty_root (root : string) :
  Path.posix_resolvePath root (Path.JString "")
  = inr (Path.posix_normalize root).
Proof.
  rewrite posix_resolvePath_empty, posix_join_empty.
  destruct (String.eqb root "") eqn:E.
  - apply String.eqb_eq in E. by subst root.
  - by rewrite posix_normalize_idempotent.
Qed.

(** C3 (as amended): for every relative path that passes the NUL,
    absoluteness and traversal checks, [resolvePath root p] returns the
    normalization of the join of the root and [p]. In particular the empty
    relative path is never rejected: it resolves to the root in normal form,
    which is the root itself only for a root that normalization leaves
    unchanged. *)
Theorem C3_resolve_is_normalized_join :
  (forall sep isAbsolute normalize join (root p : string),
      Path.includes_nul p = false ->
      isAbsolute p = false ->
      Path.UP_PATH_REGEXP_test (normalize ("." ++ sep ++ p)%string) = false ->
      Path.resolvePath sep isAbsolute normalize join root (Path.JString p)
      = inr (normalize (join root p)))
  /\ (forall root : string,
        Path.posix_resolvePath root (Path.JString "")
        = inr (Path.posix_normalize (Path.posix_join root ""))
        /\ Path.posix_resolvePath root (Path.JString "")
           = inr (Path.posix_normalize root))
  /\ (forall root : string,
        Path.posix_normalize root = root ->
        Path.posix_resolvePath root (Path.JString "") = inr root).
Proof.
  split; [|split].
  - intros. by apply resolvePath_passes.
  - intros root. split.
    + apply posix_resolvePath_empty.
    + apply posix_resolvePath_empty_root.
  - intros root H. by rewrite posix_resolvePath_empty_root, H.
Qed.

Lemma C3_witness :
  Path.posix_resolvePath "root" (Path.JString "a/./b") = inr "root/a/b"%string
  /\ Path.posix_resolvePath "root" (Path.JString "a//b")
     = inr "root/a/b"%string
  /\ Path.posix_resolvePath "root" (Path.JString "") = inr "root"%string.
Proof.
  split; [|split].
  - apply (proj1 C3_resolve_is_normalized_join Path.posix_sep
             Path.posix_isAbsolute Path.posix_normalize Path.posix_join
             "root"%string "a/./b"%string); reflexivity.
  - apply (proj1 C3_resolve_is_normalized_join Path.posix_sep
             Path.posix_isAbsolute Path.posix_normalize Path.posix_join
             "root"%string "a//b"%string); reflexivity.
  - apply (proj2 (proj2 C3_resolve_is_normalized_join) "root"%string).
    reflexivity.
Defined.

(** C3 as stated fails in its last part: the empty relative path resolves
    to the root in normal form, which is not the root itself for a root
    that is not in normal form. *)
Lemma C3_counterexample :
  Path.posix_resolvePath "./root" (Path.JString "") = inr "root"%string
  /\ Path.posix_resolvePath "a//b" (Path.JString "") = inr "a/b"%string
  /\ Path.posix_resolvePath "" (Path.JString "") = inr "."%string
  /\ Path.posix_resolvePath "./root" (Path.JString "")
     <> inr "./root"%string.
Proof.
  split; [reflexivity|]. split; [reflexivity|]. split; [reflexivity|].
  discriminate.
Qed.

(** C10: the NUL, absoluteness and traversal checks read the relative
    path only. For every root string, whatever it contains, a rejection of
    a relative path is the same rejection under every other root, and a
    relative path that passes the checks resolves to the normalization of
    the join of that root and the path. *)
Theorem C10_checks_read_relative_path_only :
  forall sep isAbsolute normalize join,
    (forall (root root' p : string) e,
        Path.resolvePath sep isAbsolute normalize join root (Path.JString p)
        = inl e ->
        Path.resolvePath sep isAbsolute normalize join root' (Path.JString p)
        = inl e)
    /\ (forall root p : string,
          Path.includes_nul p = false ->
          isAbsolute p = false ->
          Path.UP_PATH_REGEXP_test (normalize ("." ++ sep ++ p)%string)
          = false ->
          Path.resolvePath sep isAbsolute normalize join root (Path.JString p)
          = inr (normalize (join root p))).
Proof.
  intros sep isAbsolute normalize join. split.
  - intros root root' p e. rewrite !resolvePath_string.
    destruct (Path.check_path sep isAbsolute normalize p); [auto|discriminate].
  - intros. by apply resolvePath_passes.
Qed.

Lemma C10_witness :
  Path.posix_resolvePath ("ro" ++ String Path.NUL "ot") (Path.JString "a/b")
  = inr ("ro" ++ String Path.NUL "ot/a/b")%string
  /\ Path.posix_resolvePath "../../conf" (Path.JString "a/b")
     = inr "../../conf/a/b"%string
  /\ Path.posix_resolvePath "/srv/../www" (Path.JString "a/b")
     = inr "/www/a/b"%string
  /\ Path.posix_resolvePath "/srv/../www" (Path.JString "../x")
     = inl (Path.HttpError 403 None).
Proof.
  pose proof (C10_checks_read_relative_path_only Path.posix_sep
                Path.posix_isAbsolute Path.posix_normalize Path.posix_join)
    as [Hrej Hok].
  split; [|split; [|split]].
  - apply (Hok ("ro" ++ String Path.NUL "ot")%string "a/b"%string);
      reflexivity.
  - apply (Hok "../../conf"%string "a/b"%string); reflexivity.
  - apply (Hok "/srv/../www"%string "a/b"%string); reflexivity.
  - apply (Hrej "root"%string "/srv/../www"%string "../x"%string).
    reflexivity.
Defined.

(** ** The bridge *)

Section PullAnyController.

Import Bytes Bridge.

Context {exn R C : Type}.
Variable reader : Reader exn R.
Variable controller : Controller exn C.
Variable options : ReadableStreamFromReaderOptions.

Let src := readableStreamFromReader reader controller options.
Let chunk := fresh_chunk options.
Let n := capacity options.

Lemma fresh_chunk_length : length chunk = n.
Proof. apply length_replicate. Qed.

(** [pull] is its two halves run one after the other. *)
Lemma pull_split (w : world exn R C) :
  pull src w
  = pull_resume reader controller options chunk (pull_start options w).2.
Proof.
  unfold src, readableStreamFromReader, pull, pull_resume, pull_start,
    try_catch, bind, reader_read, reader_settle, reader_call, log.
  fold (capacity options). fold (fresh_chunk options). fold chunk.
  cbn. destruct (read reader (w_reader w) chunk) as [[|filled k|e] r1];
    reflexivity.
Qed.

Lemma pull_start_world (w : world exn R C) :
  (pull_start options w).2
  = Build_world (w_reader w) (w_ctrl w) (w_calls w ++ [CallRead n]).
Proof.
  unfold pull_start, reader_call, log. fold (capacity options).
  fold (fresh_chunk options). fold chunk. cbn.
  by rewrite fresh_chunk_length.
Qed.

(** The rest of a pull whose read returns a count, when the enqueue call
    returns normally. *)
Lemma resume_enqueue_accepted (w : world exn R C) buf filled k r1 c1 :
  read reader (w_reader w) buf = (ReadCount filled k, r1) ->
  enqueue controller (w_ctrl w) (subarray filled 0 k) = (None, c1) ->
  pull_resume reader controller options buf w
  = (Returns tt,
     Build_world r1 c1 (w_calls w ++ [CallEnqueue (subarray filled 0 k)])).
Proof.
  intros H He.
  unfold pull_resume, try_catch, bind, reader_settle, controller_enqueue,
    log.
  rewrite H. cbn. rewrite He. reflexivity.
Qed.

(** When the enqueue call throws, the handler of the [try] block takes
    over: the failure is signalled as the stream's error and the source
    is closed if it can be. *)
Lemma resume_enqueue_rejected (w : world exn R C) buf filled k r1 e c1 c2 :
  read reader (w_reader w) buf = (ReadCount filled k, r1) ->
  enqueue controller (w_ctrl w) (subarray filled 0 k) = (Some e, c1) ->
  error controller c1 e = (None, c2) ->
  pull_resume reader controller options buf w
  = match close reader with
    | Some close_fn =>
        (lift_unit (close_fn r1).1,
         Build_world (close_fn r1).2 c2
           (w_calls w
            ++ [CallEnqueue (subarray filled 0 k); CallError e;
                CallSourceClose]))
    | None =>
        (Returns tt,
         Build_world r1 c2
           (w_calls w ++ [CallEnqueue (subarray filled 0 k); CallError e]))
    end.
Proof.
  intros H He Hr.
  unfold pull_resume, try_catch, bind, reader_settle, controller_enqueue,
    controller_error, close_if_closer, reader_close, log.
  rewrite H. cbn. rewrite He. cbn. rewrite Hr. cbn.
  destruct (close reader) as [close_fn|]; cbn.
  - destruct (close_fn r1) as [o r2]; cbn. by rewrite <- !app_assoc.
  - by rewrite <- !app_assoc.
Qed.



(** The rest of a pull whose read reports end-of-data while the due close
    call throws: the failure is caught by the handler of the read, which
    signals it as the stream's error and calls close once more. *)
Lemma resume_null_close_throws (w : world exn R C) buf r1 close_fn e r2 c2 :
  read reader (w_reader w) buf = (ReadNull, r1) ->
  close reader = Some close_fn -> auto_close options = true ->
  close_fn r1 = (Some e, r2) ->
  error controller (w_ctrl w) e = (None, c2) ->
  pull_resume reader controller options buf w
  = (lift_unit (close_fn r2).1,
     Build_world (close_fn r2).2 c2
       (w_calls w ++ [CallSourceClose; CallError e; CallSourceClose])).
Proof.
  intros H Hc Ha He Hr.
  unfold pull_resume, try_catch, bind, reader_settle, controller_close,
    controller_error, close_if_closer, reader_close, log.
  fold (auto_close options).
  rewrite H, Hc, Ha. cbn. rewrite He. cbn. rewrite Hr. cbn.
  destruct (close_fn r2) as [o r3]; cbn. by rewrite <- !app_assoc.
Qed.

(** A pull whose read returns a count and whose enqueue call returns
    normally makes those two calls and ends normally. *)
Lemma pull_enqueue_accepted (w : world exn R C) filled k r1 c1 :
  read reader (w_reader w) chunk = (ReadCount filled k, r1) ->
  enqueue controller (w_ctrl w) (subarray filled 0 k) = (None, c1) ->
  pull src w
  = (Returns tt,
     Build_world r1 c1
       (w_calls w ++ [CallRead n; CallEnqueue (subarray filled 0 k)])).
Proof.
  intros H He. rewrite pull_split, pull_start_world.
  rewrite (resume_enqueue_accepted
             (Build_world (w_reader w) (w_ctrl w) (w_calls w ++ [CallRead n]))
             chunk filled k r1 c1 H He). cbn.
  by rewrite <- app_assoc.
Qed.

Lemma pull_enqueue_rejected (w : world exn R C) filled k r1 e c1 c2 :
  read reader (w_reader w) chunk = (ReadCount filled k, r1) ->
  enqueue controller (w_ctrl w) (subarray filled 0 k) = (Some e, c1) ->
  error controller c1 e = (None, c2) ->
  pull src w
  = match close reader with
    | Some close_fn =>
        (lift_unit (close_fn r1).1,
         Build_world (close_fn r1).2 c2
           (w_calls w
            ++ [CallRead n; CallEnqueue (subarray filled 0 k);
                CallError e; CallSourceClose]))
    | None =>
        (Returns tt,
         Build_world r1 c2
           (w_calls w
            ++ [CallRead n; CallEnqueue (subarray filled 0 k); CallError e]))
    end.
Proof.
  intros H He Hr. rewrite pull_split, pull_start_world.
  rewrite (resume_enqueue_rejected
             (Build_world (w_reader w) (w_ctrl w) (w_calls w ++ [CallRead n]))
             chunk filled k r1 e c1 c2 H He Hr).
  cbn. destruct (close reader); by rewrite <- app_assoc.
Qed.

Lemma pull_null_close_throws (w : world exn R C) r1 close_fn e r2 c2 :
  read reader (w_reader w) chunk = (ReadNull, r1) ->
  close reader = Some close_fn -> auto_close options = true ->
  close_fn r1 = (Some e, r2) ->
  error controller (w_ctrl w) e = (None, c2) ->
  pull src w
  = (lift_unit (close_fn r2).1,
     Build_world (close_fn r2).2 c2
       (w_calls w
        ++ [CallRead n; CallSourceClose; CallError e; CallSourceClose])).
Proof.
  intros H Hc Ha He Hr. rewrite pull_split, pull_start_world.
  rewrite (resume_null_close_throws
             (Build_world (w_reader w) (w_ctrl w) (w_calls w ++ [CallRead n]))
             chunk r1 close_fn e r2 c2 H Hc Ha He Hr).
  cbn. by rewrite <- app_assoc.
Qed.

(** Cancellation calls close on a closable source when [autoClose] is
    set, and nothing else. *)
Lemma cancel_calls (w : world exn R C) :
  (cancel src w).2.(w_calls)
  = w_calls w
    ++ (if isCloser reader && auto_close options
        then [CallSourceClose] else [])
  /\ (cancel src w).2.(w_ctrl) = w_ctrl w.
Proof.
  unfold src, readableStreamFromReader, cancel, close_if_closer,
    reader_close, log, isCloser, ret.
  fold (auto_close options).
  destruct (close reader) as [close_fn|]; cbn.
  - destruct (auto_close options); cbn.
    + destruct (close_fn (w_reader w)) as [o r2]; cbn. auto.
    + by rewrite app_nil_r.
  - by rewrite app_nil_r.
Qed.

Lemma cancel_closes (w : world exn R C) close_fn :
  close reader = Some close_fn ->
  auto_close options = true ->
  cancel src w
  = (lift_unit (close_fn (w_reader w)).1,
     Build_world (close_fn (w_reader w)).2 (w_ctrl w)
       (w_calls w ++ [CallSourceClose])).
Proof.
  intros Hc Ha.
  unfold src, readableStreamFromReader, cancel, close_if_closer,
    reader_close, log.
  fold (auto_close options). rewrite Hc, Ha.
  destruct (close_fn (w_reader w)) as [o r1]; reflexivity.
Qed.

End PullAnyController.

Section ByteStreamFacts.

Import Bytes Bridge.

Context {exn R : Type}.
Variable type_error : exn.
Variable reader : Reader exn R.
Variable options : ReadableStreamFromReaderOptions.

Let chunk := fresh_chunk options.
Let n := capacity options.
Let go := run type_error reader options.
Let step := exec type_error reader options.


Lemma run_cons (m : move) (ms : list move) (s : run_state exn R) :
  go (m :: ms) s = go ms (step m s).
Proof. reflexivity. Qed.

(** The stream calls [pull] on a stream that takes chunks: the read is
    issued. *)
Lemma exec_start r q calls outs :
  step StartPull
    (Build_run_state (Build_world r (Build_stream Readable false q) calls)
       None outs)
  = Build_run_state
      (Build_world r (Build_stream Readable false q)
         (calls ++ [CallRead n]))
      (Some chunk) outs.
Proof.
  unfold step, exec. cbn [rs_pending rs_world w_ctrl accepting st_status
    st_close_requested negb rs_outcomes].
  by rewrite pull_start_world.
Qed.






(** Nothing moves once the stream is closed or errored and no read is
    pending. *)
Lemma run_dead (moves : list move) r st calls outs :
  st_status st <> Readable ->
  go moves (Build_run_state (Build_world r st calls) None outs)
  = Build_run_state (Build_world r st calls) None outs.
Proof.
  intros Hs. induction moves as [|m moves IH]; [reflexivity|].
  rewrite run_cons. destruct st as [status cr q].
  destruct m; unfold step, exec, accepting; cbn;
    destruct status; try contradiction; exact IH.
Qed.





(** A read that returns no byte: the byte stream refuses the empty chunk,
    and the handler of the [try] block errors the stream. *)
Lemma run_pull_zero r q calls outs filled k r1 :
  read reader r chunk = (ReadCount filled k, r1) ->
  subarray filled 0 k = [] ->
  go [StartPull; SettleRead]
    (Build_run_state (Build_world r (Build_stream Readable false q) calls)
       None outs)
  = match close reader with
    | Some close_fn =>
        Build_run_state
          (Build_world (close_fn r1).2
             (Build_stream (Errored type_error) false [])
             (calls ++ [CallRead n; CallEnqueue []; CallError type_error;
                        CallSourceClose]))
          None (outs ++ [lift_unit (close_fn r1).1])
    | None =>
        Build_run_state
          (Build_world r1 (Build_stream (Errored type_error) false [])
             (calls ++ [CallRead n; CallEnqueue []; CallError type_error]))
          None (outs ++ [Returns tt])
    end.
Proof.
  intros Hr He. rewrite !run_cons, exec_start.
  unfold step, exec. cbn [rs_pending rs_world rs_outcomes].
  rewrite (resume_enqueue_rejected reader (byte_controller type_error)
             options
             (Build_world r (Build_stream Readable false q)
                (calls ++ [CallRead n]))
             chunk filled k r1 type_error
             (Build_stream Readable false q)
             (Build_stream (Errored type_error) false []) Hr).
  - rewrite He. cbn [w_calls].
    destruct (close reader) as [close_fn|].
    + destruct (close_fn r1) as [[e2|] r2]; cbn; by rewrite <- app_assoc.
    + cbn. by rewrite <- app_assoc.
  - cbn. by rewrite He.
  - reflexivity.
Qed.

(** The byte stream takes a chunk of at least one byte while it takes
    chunks, and refuses an empty one. *)
Lemma byte_enqueue_accepted (st : stream exn) (c : u8array) :
  accepting st = true -> c <> [] ->
  enqueue (byte_controller type_error) st c
  = (None, Build_stream Readable false (st_queue st ++ [c])).
Proof.
  intros Ha Hc. cbn. rewrite Ha. destruct c; [contradiction|reflexivity].
Qed.

Lemma byte_enqueue_empty (st : stream exn) :
  enqueue (byte_controller type_error) st [] = (Some type_error, st).
Proof. reflexivity. Qed.


#[local] Arguments count : simpl never.

#[local] Ltac count_calls :=
  unfold count in *; rewrite ?List.filter_app, ?length_app;
  cbn [List.filter is_source_close is_enqueue is_end is_error is_read
       length pending_reads] in *.

#[local] Ltac break_match :=
  match goal with
  | |- context [match ?x with _ => _ end] =>
      lazymatch x with
      | context [match _ with _ => _ end] => fail
      | _ => (is_var x; destruct x) || destruct x eqn:?
      end
  end.

#[local] Ltac callbacks :=
  unfold pull_resume, pull_start, byte_bridge, readableStreamFromReader,
    try_catch, bind, reader_settle, reader_call, controller_enqueue,
    controller_close, controller_error, close_if_closer, reader_close,
    log, ret, isCloser, with_stream, errored, accepting, ended, lift_unit;
  fold (auto_close options);
  cbn [w_reader w_ctrl w_calls pull cancel].

(** A move leaves a stream that takes chunks only if it took chunks
    before, and then the callbacks have still only read and enqueued. *)
Lemma exec_untouched (m : move) (s : run_state exn R) :
  accepting (w_ctrl (rs_world (step m s))) = true ->
  accepting (w_ctrl (rs_world s)) = true
  /\ (untouched s -> untouched (step m s)).
Proof.
  destruct s as [[r [status cr q] calls] pending outs].
  unfold step, exec, untouched.
  cbn [rs_world rs_pending rs_outcomes w_ctrl w_calls w_reader st_status
       st_close_requested st_queue].
  destruct m; callbacks; repeat (cbn; break_match); cbn;
    try discriminate; try tauto; try congruence;
    intros Ha; (split; [exact Ha || done|]); intros (H1 & H2 & H3 & H4);
    count_calls; lia.
Qed.

Lemma run_untouched (moves : list move) (s : run_state exn R) :
  (accepting (w_ctrl (rs_world s)) = true -> untouched s) ->
  accepting (w_ctrl (rs_world (go moves s))) = true ->
  untouched (go moves s).
Proof.
  revert s. induction moves as [|m moves IH]; intros s Hs Ha; [auto|].
  rewrite run_cons in *. apply IH; [|exact Ha].
  intros Hx. destruct (exec_untouched m s Hx) as [H1 H2]. auto.
Qed.





End ByteStreamFacts.







(** C6 (the code departs from the claim): a pull whose read returns a
    count of zero does call enqueue with an empty chunk, and does not take
    the count for end-of-data; but the stream is a byte stream, which
    refuses an empty chunk by throwing, so the handler of the [try] block
    errors the stream with that [TypeError] and closes a closable source,
    whatever [autoClose] says. The stream does not stay open. *)
Theorem C6_zero_read_errors_the_stream :
  forall (exn R : Type) (type_error : exn) (reader : Bridge.Reader exn R)
         (options : Bridge.ReadableStreamFromReaderOptions)
         (w : Bridge.world exn R (Bridge.stream exn))
         (filled : list byte) (r1 : R),
    Bridge.read reader (Bridge.w_reader w) (Bridge.fresh_chunk options)
    = (Bridge.ReadCount filled 0, r1) ->
    Bridge.st_status (Bridge.w_ctrl w) = Bridge.Readable ->
    Bridge.pull (Bridge.byte_bridge type_error reader options) w
    = match Bridge.close reader with
      | Some close_fn =>
          (Bridge.lift_unit (close_fn r1).1,
           Bridge.Build_world (close_fn r1).2
             (Bridge.Build_stream (Bridge.Errored type_error)
                (Bridge.st_close_requested (Bridge.w_ctrl w)) [])
             (Bridge.w_calls w
              ++ [Bridge.CallRead (Bridge.capacity options);
                  Bridge.CallEnqueue []; Bridge.CallError type_error;
                  Bridge.CallSourceClose]))
      | None =>
          (Bridge.Returns tt,
           Bridge.Build_world r1
             (Bridge.Build_stream (Bridge.Errored type_error)
                (Bridge.st_close_requested (Bridge.w_ctrl w)) [])
             (Bridge.w_calls w
              ++ [Bridge.CallRead (Bridge.capacity options);
                  Bridge.CallEnqueue []; Bridge.CallError type_error]))
      end.
Proof.
  intros exn R te reader options w filled r1 Hr Hs.
  assert (He : Bytes.subarray filled 0 0 = [])
    by exact (subarray_prefix filled 0).
  unfold Bridge.byte_bridge.
  rewrite (pull_enqueue_rejected reader (Bridge.byte_controller te) options
             w filled 0 r1 te (Bridge.w_ctrl w)
             (Bridge.Build_stream (Bridge.Errored te)
                (Bridge.st_close_requested (Bridge.w_ctrl w)) []) Hr).
  - by rewrite He.
  - rewrite He. apply byte_enqueue_empty.
  - cbn. unfold Bridge.errored. by rewrite Hs.
Qed.

Lemma C6_witness :
  Bridge.pull
    (Bridge.byte_bridge "TypeError"%string (Bridge.scripted (Some None))
       {| Bridge.autoClose := Some false;
          Bridge.chunkSize := Some 4%nat;
          Bridge.strategy := None |})
    (Bridge.rs_world (Bridge.start [Bridge.Yield []; Bridge.Yield [x61]]))
  = (Bridge.Returns tt,
     Bridge.Build_world [Bridge.Yield [x61]]
       (Bridge.Build_stream (Bridge.Errored "TypeError"%string) false [])
       [Bridge.CallRead 4; Bridge.CallEnqueue [];
        Bridge.CallError "TypeError"%string; Bridge.CallSourceClose]).
Proof.
  refine (C6_zero_read_errors_the_stream string _ "TypeError"%string
            (Bridge.scripted (Some None))
            {| Bridge.autoClose := Some false;
               Bridge.chunkSize := Some 4%nat;
               Bridge.strategy := None |}
            (Bridge.rs_world
               (Bridge.start [Bridge.Yield []; Bridge.Yield [x61]]))
            [x00; x00; x00; x00] [Bridge.Yield [x61]] _ _); reflexivity.
Defined.

(** C7 (as amended): for every bridge over a closable source with
    [autoClose] set, cancelling the stream before any pull has started
    results in exactly one close call on the source, which leaves the source
    as that call leaves it, and in no enqueue, end-of-stream or error call;
    the cancellation ends the way the close call ends, the stream is closed,
    and nothing the consumer or the platform does afterwards reaches the
    source or the controller. *)
Theorem C7_cancel_before_any_pull_closes_source_once :
  forall (exn R : Type) (type_error : exn) (reader : Bridge.Reader exn R)
         (options : Bridge.ReadableStreamFromReaderOptions)
         (close_fn : R -> option exn * R) (r0 : R)
         (more : list Bridge.move),
    Bridge.close reader = Some close_fn ->
    Bridge.auto_close options = true ->
    Bridge.run type_error reader options (Bridge.Cancel :: more)
      (Bridge.start r0)
    = Bridge.Build_run_state
        (Bridge.Build_world (close_fn r0).2
           (Bridge.Build_stream Bridge.Closed false [])
           [Bridge.CallSourceClose])
        None [Bridge.lift_unit (close_fn r0).1].
Proof.
  intros exn R te reader options close_fn r0 more Hc Ha.
  rewrite run_cons. unfold Bridge.start, Bridge.exec.
  cbn [Bridge.rs_world Bridge.rs_pending Bridge.rs_outcomes Bridge.w_ctrl
       Bridge.st_status Bridge.st_close_requested].
  unfold Bridge.byte_bridge.
  rewrite (cancel_closes reader (Bridge.byte_controller te) options _
             close_fn Hc Ha).
  cbn. by rewrite run_dead.
Qed.

Lemma C7_witness :
  Bridge.run "TypeError"%string (Bridge.scripted (Some None))
    {| Bridge.autoClose := None;
       Bridge.chunkSize := Some 4%nat;
       Bridge.strategy := None |}
    [Bridge.Cancel; Bridge.StartPull; Bridge.SettleRead; Bridge.Cancel]
    (Bridge.start [Bridge.Yield [x61]])
  = Bridge.Build_run_state
      (Bridge.Build_world [Bridge.Yield [x61]]
         (Bridge.Build_stream Bridge.Closed false [])
         [Bridge.CallSourceClose])
      None [Bridge.Returns tt].
Proof.
  refine (C7_cancel_before_any_pull_closes_source_once string _
            "TypeError"%string (Bridge.scripted (Some None))
            {| Bridge.autoClose := None;
               Bridge.chunkSize := Some 4%nat;
               Bridge.strategy := None |}
            (fun s => (None, s)) [Bridge.Yield [x61]]
            [Bridge.StartPull; Bridge.SettleRead; Bridge.Cancel] _ _);
    reflexivity.
Defined.

(** C7 as stated fails for a cancellation that comes while the read of the
    first pull is pending, which is also before any pull completes: the
    cancellation closes the source, and when the read settles the rest of
    the pull runs on the closed stream; its enqueue call is refused, and
    the handler of the [try] block makes an error call and a second close
    call. *)
Lemma C7_counterexample :
  Bridge.w_calls
    (Bridge.rs_world
       (Bridge.run "TypeError"%string (Bridge.scripted (Some None))
          {| Bridge.autoClose := Some true;
             Bridge.chunkSize := Some 4%nat;
             Bridge.strategy := None |}
          [Bridge.StartPull; Bridge.Cancel; Bridge.SettleRead]
          (Bridge.start [Bridge.Yield [x61]])))
  = [Bridge.CallRead 4; Bridge.CallSourceClose;
     Bridge.CallEnqueue [x61]; Bridge.CallError "TypeError"%string;
     Bridge.CallSourceClose].
Proof. reflexivity. Qed.

(** * Further properties *)

(** ** Byte helpers *)

Section MoreBytesFacts.

Import Bytes.

Lemma filter_keep_length (u8 : u8array) :
  (length (List.filter keep u8) <= length u8)%nat.
Proof.
  induction u8 as [|b u8 IH]; simpl; [lia|].
  destruct (keep b); simpl; lia.
Qed.

Lemma filter_keep_same_length (u8 : u8array) :
  length (List.filter keep u8) = length u8 -> List.filter keep u8 = u8.
Proof.
  induction u8 as [|b u8 IH]; simpl; [done|].
  pose proof (filter_keep_length u8) as Hle.
  destruct (keep b); simpl; intros Hl; [f_equal; apply IH; lia|lia].
Qed.

Lemma subarray_from_start (a : u8array) (k : Z) :
  subarray a 0 k = take (Z.to_nat (clamp_index (byteLength a) k)) a.
Proof.
  unfold subarray.
  assert (H0 : clamp_index (byteLength a) 0 = 0).
  { unfold clamp_index, byteLength. simpl. lia. }
  assert (Hk : 0 <= clamp_index (byteLength a) k).
  { unfold clamp_index, byteLength. destruct (k <? 0) eqn:E; [lia|].
    apply Z.ltb_ge in E. lia. }
  rewrite H0. simpl (Z.to_nat 0). rewrite drop_0. f_equal. lia.
Qed.

End MoreBytesFacts.

(** X1: whatever the input buffer, the buffer [skipLWSPChar] returns
    contains no space (0x20) and no horizontal-tab (0x09) byte. *)
Theorem X1_skipLWSPChar_leaves_no_blank :
  forall u8 : list byte,
    Forall (fun b => b <> x20 /\ b <> x09) (Bytes.skipLWSPChar u8).
Proof.
  intros u8. rewrite skipLWSPChar_filter. apply Forall_forall.
  intros b Hb. apply list_elem_of_In, filter_In in Hb as [_ Hk].
  unfold Bytes.keep in Hk. apply negb_true_iff in Hk.
  split; intros ->; discriminate.
Qed.

(** X2: [skipLWSPChar] of a concatenation is the concatenation of the
    results: a buffer can be stripped piece by piece. *)
Theorem X2_skipLWSPChar_app :
  forall a b : list byte,
    Bytes.skipLWSPChar (a ++ b)
    = Bytes.skipLWSPChar a ++ Bytes.skipLWSPChar b.
Proof.
  intros a b. rewrite !skipLWSPChar_filter. apply List.filter_app.
Qed.

(** X3: [skipLWSPChar] is idempotent; its result is never longer than the
    input, and has the input's length only when it is the input. *)
Theorem X3_skipLWSPChar_idempotent_and_shrinking :
  forall u8 : list byte,
    Bytes.skipLWSPChar (Bytes.skipLWSPChar u8) = Bytes.skipLWSPChar u8
    /\ (length (Bytes.skipLWSPChar u8) <= length u8)%nat
    /\ (length (Bytes.skipLWSPChar u8) = length u8
        <-> Bytes.skipLWSPChar u8 = u8).
Proof.
  intros u8. rewrite !skipLWSPChar_filter. split; [|split].
  - apply filter_keep_all. intros b Hb. apply filter_In in Hb as [_ Hk].
    unfold Bytes.keep in Hk. by apply negb_true_iff in Hk.
  - apply filter_keep_length.
  - split; [apply filter_keep_same_length|by intros ->].
Qed.

(** X4: [stripEol] returns a prefix of its input, and what it drops is
    nothing, a single line-feed, or a carriage-return followed by a
    line-feed; it never touches the bytes before that. *)
Theorem X4_stripEol_drops_a_line_ending_suffix :
  forall value : list byte,
    exists tail,
      value = Bytes.stripEol value ++ tail
      /\ (tail = [] \/ tail = [x0a] \/ tail = [x0d; x0a]).
Proof.
  intros value.
  destruct value as [|x body _] using rev_ind.
  { exists []. split; [reflexivity|auto]. }
  destruct (Byte.byte_eq_dec x Bytes.LF) as [->|Hx].
  - destruct body as [|y body' _] using rev_ind.
    { exists [x0a]. split; [reflexivity|auto]. }
    destruct (Byte.byte_eq_dec y Bytes.CR) as [->|Hy].
    + exists [x0d; x0a]. rewrite <- app_assoc. simpl.
      rewrite stripEol_crlf. auto.
    + exists [x0a]. rewrite stripEol_lf; [auto|].
      rewrite last_snoc. congruence.
  - exists []. rewrite app_nil_r. split; [|auto].
    symmetry. apply stripEol_keeps. rewrite last_snoc. congruence.
Qed.

(** X5: [stripEol] returns its input unchanged exactly when the input does
    not end in a line-feed; this covers the empty buffer and a buffer
    ending in a carriage-return alone. *)
Theorem X5_stripEol_unchanged_iff_no_trailing_lf :
  forall value : list byte,
    Bytes.stripEol value = value <-> last value <> Some x0a.
Proof.
  intros value. split.
  - intros Heq Hl. apply stripEol_shortens in Hl. rewrite Heq in Hl. lia.
  - apply stripEol_keeps.
Qed.

(** X6: when a buffer ends in a line-feed that no carriage-return
    precedes, [stripEol] drops that one byte only. *)
Theorem X6_stripEol_lone_lf :
  forall body : list byte,
    last body <> Some x0d ->
    Bytes.stripEol (body ++ [x0a]) = body.
Proof. intros body H. by apply stripEol_lf. Qed.

Lemma X6_witness : Bytes.stripEol ([x61; x62] ++ [x0a]) = [x61; x62].
Proof.
  apply (X6_stripEol_lone_lf [x61; x62]). simpl. discriminate.
Defined.

(** X7: whatever count the reader reports, the chunk a pull hands to a
    stream that takes chunks is a prefix of the buffer the reader filled:
    the first [count] bytes for a count within the buffer, the whole buffer
    for a larger count, and for a negative count the buffer without its last
    [-count] bytes. When that prefix holds at least one byte the stream
    queues it and the pull ends normally. *)
Theorem X7_enqueued_chunk_is_prefix :
  forall (exn R : Type) (type_error : exn) (reader : Bridge.Reader exn R)
         (options : Bridge.ReadableStreamFromReaderOptions)
         (w : Bridge.world exn R (Bridge.stream exn))
         (filled : list byte) (k : Z) (r1 : R),
    Bridge.read reader (Bridge.w_reader w) (Bridge.fresh_chunk options)
    = (Bridge.ReadCount filled k, r1) ->
    Bridge.accepting (Bridge.w_ctrl w) = true ->
    take (Z.to_nat
            (if k <? 0
             then Z.max (Z.of_nat (length filled) + k) 0
             else Z.min k (Z.of_nat (length filled))))
      filled <> [] ->
    Bridge.pull (Bridge.byte_bridge type_error reader options) w
    = (Bridge.Returns tt,
       Bridge.Build_world r1
         (Bridge.Build_stream Bridge.Readable false
            (Bridge.st_queue (Bridge.w_ctrl w)
             ++ [take (Z.to_nat
                         (if k <? 0
                          then Z.max (Z.of_nat (length filled) + k) 0
                          else Z.min k (Z.of_nat (length filled))))
                   filled]))
         (Bridge.w_calls w
          ++ [Bridge.CallRead (Bridge.capacity options);
              Bridge.CallEnqueue
                (take (Z.to_nat
                         (if k <? 0
                          then Z.max (Z.of_nat (length filled) + k) 0
                          else Z.min k (Z.of_nat (length filled))))
                   filled)])).
Proof.
  intros exn R te reader options w filled k r1 H Ha Hne.
  assert (Hs : Bytes.subarray filled 0 k
               = take (Z.to_nat
                         (if k <? 0
                          then Z.max (Z.of_nat (length filled) + k) 0
                          else Z.min k (Z.of_nat (length filled))))
                   filled) by apply subarray_from_start.
  unfold Bridge.byte_bridge.
  rewrite (pull_enqueue_accepted reader (Bridge.byte_controller te) options
             w filled k r1
             (Bridge.Build_stream Bridge.Readable false
                (Bridge.st_queue (Bridge.w_ctrl w)
                 ++ [Bytes.subarray filled 0 k])) H).
  - by rewrite Hs.
  - apply byte_enqueue_accepted; [exact Ha|]. by rewrite Hs.
Qed.

Lemma X7_witness :
  Bridge.pull
    (Bridge.byte_bridge "TypeError"%string (Bridge.scripted None)
       {| Bridge.autoClose := None;
          Bridge.chunkSize := Some 2%nat;
          Bridge.strategy := None |})
    (Bridge.rs_world (Bridge.start [Bridge.Yield [x61; x62; x63]]))
  = (Bridge.Returns tt,
     Bridge.Build_world []
       (Bridge.Build_stream Bridge.Readable false [[x61; x62]])
       [Bridge.CallRead 2; Bridge.CallEnqueue [x61; x62]]).
Proof.
  refine (X7_enqueued_chunk_is_prefix string _ "TypeError"%string
            (Bridge.scripted None)
            {| Bridge.autoClose := None;
               Bridge.chunkSize := Some 2%nat;
               Bridge.strategy := None |}
            (Bridge.rs_world (Bridge.start [Bridge.Yield [x61; x62; x63]]))
            [x61; x62] 2 [] _ _ _);
    [reflexivity|reflexivity|discriminate].
Defined.

(** ** Path resolution *)

Section MorePathFacts.

Import Path.
Local Open Scope string_scope.

#[local] Arguments String.eqb : simpl never.

Lemma slash_segments_nonempty s : slash_segments s <> [].
Proof.
  destruct s as [|c s]; simpl; [discriminate|].
  destruct (is_slash c); [discriminate|].
  destruct (slash_segments s); discriminate.
Qed.

Lemma dotdot_here_head c rest seg more :
  is_slash c = false -> slash_segments rest = seg :: more ->
  dotdot_here (String c rest) = String.eqb (String c seg) "..".
Proof.
  intros Hc Hs.
  destruct (Ascii.eqb c ".") eqn:Ec.
  - apply Ascii.eqb_eq in Ec. subst c.
    destruct rest as [|d rest]; simpl in Hs.
    + injection Hs as <- <-. reflexivity.
    + destruct (is_slash d) eqn:Ed.
      * injection Hs as <- <-.
        unfold is_slash in Ed.
        destruct (Ascii.eqb d ".") eqn:Edd.
        { apply Ascii.eqb_eq in Edd. subst d. discriminate. }
        cbn [dotdot_here]. 
        destruct d as [[] [] [] [] [] [] [] []]; try reflexivity; discriminate.
      * pose proof (slash_segments_nonempty rest) as Hne.
        destruct (slash_segments rest) as [|seg' more'] eqn:Er; [done|].
        injection Hs as <- <-.
        destruct (Ascii.eqb d ".") eqn:Edd.
        -- apply Ascii.eqb_eq in Edd. subst d.
           destruct rest as [|e rest]; simpl in Er.
           ++ injection Er as <- <-. reflexivity.
           ++ destruct (is_slash e) eqn:Ee.
              ** injection Er as <- <-. simpl. by rewrite Ee.
              ** pose proof (slash_segments_nonempty rest) as Hne2.
                 destruct (slash_segments rest); [done|].
                 injection Er as <- <-. simpl. rewrite Ee.
                 unfold String.eqb. simpl. reflexivity.
        -- transitivity false.
           ++ destruct d as [[] [] [] [] [] [] [] []]; try reflexivity; discriminate.
           ++ symmetry. apply String.eqb_neq. intros [= ->]. discriminate.
  - transitivity false.
    + destruct c as [[] [] [] [] [] [] [] []]; try reflexivity; discriminate.
    + symmetry. apply String.eqb_neq. intros [= ->]. discriminate.
Qed.

Lemma up_path_from_segments s :
  up_path_from true s = has_dotdot (slash_segments s)
  /\ up_path_from false s = has_dotdot (tail (slash_segments s)).
Proof.
  induction s as [|c rest [IHt IHf]].
  - split; reflexivity.
  - cbn [up_path_from slash_segments].
    destruct (is_slash c) eqn:Ec.
    + assert (Hd : dotdot_here (String c rest) = false).
      { unfold is_slash in Ec.
        destruct c as [[] [] [] [] [] [] [] []]; try reflexivity; discriminate. }
      rewrite Hd, IHt. split; reflexivity.
    + rewrite IHf.
      pose proof (slash_segments_nonempty rest) as Hne.
      destruct (slash_segments rest) as [|seg more] eqn:Er; [done|].
      split; [|reflexivity].
      rewrite (dotdot_here_head c rest seg more Ec Er). reflexivity.
Qed.

(** X8: [UP_PATH_REGEXP] matches a string exactly when one of its
    segments, cut at every slash or backslash, is [..]. *)
Theorem X8_up_path_regexp_matches_dotdot_segment :
  forall s : string,
    UP_PATH_REGEXP_test s = has_dotdot (slash_segments s).
Proof. intros s. apply up_path_from_segments. Qed.


Lemma posix_normalize_kept path :
  path <> "" ->
  posix_normalize path
  = assemble (posix_isAbsolute path) (ends_with_slash path) (kept path).
Proof. apply posix_normalize_assemble. Qed.

Lemma posix_normalize_dot_slash p :
  p <> "" -> posix_isAbsolute p = false ->
  posix_normalize ("./" ++ p) = posix_normalize p.
Proof.
  intros Hp Ha.
  rewrite (posix_normalize_assemble ("./" ++ p)) by discriminate.
  rewrite (posix_normalize_assemble p Hp).
  change ("./" ++ p) with ("." ++ String "/" p).
  rewrite segments_app_slash.
  change (posix_isAbsolute ("." ++ String "/" p)) with false.
  change ("." ++ String "/" p) with ("./" ++ p).
  rewrite ends_with_slash_app by exact Hp.
  rewrite Ha. reflexivity.
Qed.

Lemma posix_join_nonempty a b :
  a <> "" -> b <> "" -> posix_join a b = posix_normalize (a ++ "/" ++ b).
Proof.
  intros Ha Hb. unfold posix_join. cbn [List.filter].
  apply String.eqb_neq in Ha, Hb. rewrite Ha, Hb. reflexivity.
Qed.

(** X9: with one argument and the POSIX path functions, [resolvePath]
    runs the same three checks on that argument, and an accepted path
    resolves to its own normal form. *)
Theorem X9_single_argument_resolves_to_normal_form :
  forall p : string,
    posix_resolvePath p JUndefined
    = match check_path posix_sep posix_isAbsolute posix_normalize p with
      | Some e => inl e
      | None => inr (posix_normalize p)
      end.
Proof.
  intros p. unfold posix_resolvePath.
  rewrite resolvePath_single, resolvePath_string.
  destruct (check_path_cases posix_sep posix_isAbsolute posix_normalize p)
    as [[-> _]|[[-> _]|[-> (_ & Ha & _)]]]; try reflexivity.
  f_equal. destruct (String.eqb p "") eqn:E.
  - apply String.eqb_eq in E. by subst p.
  - apply String.eqb_neq in E.
    rewrite posix_join_nonempty by (discriminate || exact E).
    change ("." ++ "/" ++ p) with ("./" ++ p).
    rewrite posix_normalize_dot_slash by assumption.
    by rewrite !posix_normalize_idempotent.
Qed.

Lemma dotdot_persists absolute stack seg :
  In ".." stack -> In ".." (push_segment absolute stack seg).
Proof.
  intros H. unfold push_segment.
  destruct (String.eqb seg "" || String.eqb seg "."); [done|].
  destruct (String.eqb seg "..") eqn:E; [|by right].
  destruct stack as [|top below]; [done|].
  destruct (String.eqb top "..") eqn:Et.
  - destruct absolute; [done|by right].
  - destruct H as [H|H]; [|done]. apply String.eqb_neq in Et. congruence.
Qed.

Lemma fold_dotdot_persists absolute segs stack :
  In ".." stack -> In ".." (fold_left (push_segment absolute) segs stack).
Proof.
  revert stack. induction segs as [|seg segs IH]; intros stack H; [done|].
  simpl. apply IH. by apply dotdot_persists.
Qed.

Lemma push_segment_over absolute local base seg :
  ~ In ".." local -> ~ In ".." (push_segment false local seg) ->
  push_segment absolute (local ++ base)%list seg
  = (push_segment false local seg ++ base)%list.
Proof.
  intros Hl Hp. unfold push_segment in *.
  destruct (String.eqb seg "" || String.eqb seg "."); [done|].
  destruct (String.eqb seg "..") eqn:E; [|done].
  apply String.eqb_eq in E. subst seg.
  destruct local as [|top below].
  - exfalso. apply Hp. by left.
  - simpl. destruct (String.eqb top "..") eqn:Et; [|done].
    apply String.eqb_eq in Et. subst top. exfalso. apply Hl. by left.
Qed.

Lemma fold_push_over absolute segs local base :
  ~ In ".." local ->
  ~ In ".." (fold_left (push_segment false) segs local) ->
  fold_left (push_segment absolute) segs (local ++ base)%list
  = (fold_left (push_segment false) segs local ++ base)%list.
Proof.
  revert local. induction segs as [|seg segs IH]; intros local Hl Hf; [done|].
  simpl in *.
  assert (Hp : ~ In ".." (push_segment false local seg)).
  { intros Hin. apply Hf. by apply fold_dotdot_persists. }
  rewrite push_segment_over by done. by apply IH.
Qed.

Lemma assemble_begins_with_parent trailing rest :
  begins_with_parent (assemble false trailing (".." :: rest)) = true.
Proof.
  unfold assemble.
  destruct rest as [|y l].
  - destruct trailing; reflexivity.
  - rewrite concat_cons2.
    assert (E : String.eqb (".." ++ String "/" (String.concat "/" (y :: l))) ""
                = false) by reflexivity.
    rewrite E. cbn [andb negb]. rewrite E. cbn [andb negb].
    destruct trailing; reflexivity.
Qed.

Lemma all_dotdot_rev l :
  all_dotdot l = true -> exists front, rev (".." :: l) = ".." :: front.
Proof.
  induction l as [|y l IH] using rev_ind; intros H.
  - by exists [].
  - unfold all_dotdot in H. rewrite forallb_app in H.
    apply andb_true_iff in H as [Hl Hy]. simpl in Hy.
    rewrite andb_true_r in Hy. apply String.eqb_eq in Hy. subst y.
    rewrite app_comm_cons, rev_unit. by eexists.
Qed.

Lemma wf_bottom_dotdot stack :
  wf_stack false stack -> In ".." stack ->
  exists front, rev stack = ".." :: front.
Proof.
  intros [_ Hd] Hin.
  induction stack as [|x rest IH]; [done|].
  cbn [dots_below] in Hd.
  destruct (String.eqb x "..") eqn:Ex.
  - apply String.eqb_eq in Ex. subst x. cbn [negb andb] in Hd.
    by apply all_dotdot_rev.
  - destruct Hin as [Hin|Hin]; [apply String.eqb_neq in Ex; congruence|].
    destruct (IH Hd Hin) as [front Hf]. simpl. rewrite Hf. by eexists.
Qed.

Lemma accepted_keeps_no_dotdot p :
  p <> "" -> posix_isAbsolute p = false ->
  UP_PATH_REGEXP_test (posix_normalize ("." ++ posix_sep ++ p)) = false ->
  ~ In ".." (fold_left (push_segment false) (segments p) []).
Proof.
  intros Hp Ha Hup Hin.
  assert (Hw : wf_stack false (fold_left (push_segment false) (segments p) [])).
  { apply fold_push_wf; [apply segments_all_no_slash|by split]. }
  destruct (wf_bottom_dotdot _ Hw Hin) as [front Hf].
  change ("." ++ posix_sep ++ p) with ("./" ++ p) in Hup.
  rewrite posix_normalize_dot_slash in Hup by assumption.
  rewrite (posix_normalize_assemble p Hp), Ha, Hf in Hup.
  pose proof (assemble_begins_with_parent (ends_with_slash p) front) as Hb.
  apply begins_with_parent_matches in Hb. congruence.
Qed.

(** X10: under the POSIX path functions, when [resolvePath] accepts a
    non-empty relative path the result is built from the segments
    normalization keeps of the root, followed by the segments it keeps of
    the relative path, none of which is [..]: the result never climbs out
    of the normalized root. *)
Theorem X10_resolved_path_extends_root :
  forall root p r : string,
    p <> "" ->
    posix_resolvePath root (JString p) = inr r ->
    r = assemble (posix_isAbsolute root) (ends_with_slash p)
          (kept root ++ kept p)%list
    /\ Forall (fun seg => seg <> "..") (kept p).
Proof.
  intros root p r Hp H. unfold posix_resolvePath in H.
  rewrite resolvePath_string in H.
  destruct (check_path_cases posix_sep posix_isAbsolute posix_normalize p)
    as [[E _]|[[E _]|[E (_ & Ha & Hup)]]]; rewrite E in H; try discriminate.
  injection H as <-.
  pose proof (accepted_keeps_no_dotdot p Hp Ha Hup) as Hno.
  assert (Hk : kept p = rev (fold_left (push_segment false) (segments p) [])).
  { unfold kept. by rewrite Ha. }
  split.
  - destruct (String.eqb root "") eqn:Er.
    + apply String.eqb_eq in Er. subst root.
      assert (Hj : posix_join "" p = posix_normalize p).
      { unfold posix_join. cbn [List.filter].
        apply String.eqb_neq in Hp. rewrite Hp. reflexivity. }
      rewrite Hj, posix_normalize_idempotent.
      rewrite (posix_normalize_assemble p Hp), Ha, Hk. reflexivity.
    + apply String.eqb_neq in Er.
      rewrite posix_join_nonempty by assumption.
      rewrite posix_normalize_idempotent.
      rewrite posix_normalize_assemble
        by (destruct root; [done|discriminate]).
      assert (Hab : posix_isAbsolute (root ++ "/" ++ p)
                    = posix_isAbsolute root)
        by (destruct root; [done|reflexivity]).
      assert (Htr : ends_with_slash (root ++ "/" ++ p) = ends_with_slash p).
      { rewrite ends_with_slash_app by discriminate.
        by rewrite (ends_with_slash_app "/" p Hp). }
      rewrite Hab, Htr. f_equal.
      change (root ++ "/" ++ p) with (root ++ String "/" p).
      rewrite segments_app_slash, fold_left_app.
      pose proof (fold_push_over (posix_isAbsolute root) (segments p) []
                    (fold_left (push_segment (posix_isAbsolute root))
                       (segments root) []) ltac:(intros []) Hno) as Hover.
      cbn [app] in Hover. rewrite Hover.
      rewrite rev_app_distr, Hk. reflexivity.
  - rewrite Hk. apply Forall_forall. intros seg Hin -> .
    apply Hno. apply list_elem_of_In in Hin. by apply in_rev.
Qed.

Lemma X10_witness :
  "/srv/www/img/a.png"
  = assemble true false (["srv"; "www"] ++ ["img"; "a.png"])%list
  /\ Forall (fun seg => seg <> "..") (kept "img/x/../a.png").
Proof.
  exact (X10_resolved_path_extends_root "/srv//www/" "img/x/../a.png"
           "/srv/www/img/a.png" ltac:(discriminate) eq_refl).
Defined.


End MorePathFacts.

(** ** The bridge: whole runs *)

Section FreeRunFacts.

Import Bytes Bridge.

Context {exn R C : Type}.
Variable reader : Reader exn R.
Variable controller : Controller exn C.
Variable options : ReadableStreamFromReaderOptions.

Let go := free_run reader controller options.
Let step := free_exec reader controller options.

#[local] Arguments count : simpl never.

#[local] Ltac count_calls :=
  unfold count in *; rewrite ?List.filter_app, ?length_app;
  cbn [List.filter is_source_close is_enqueue is_end is_error is_read
       length pending_reads] in *.

#[local] Ltac break_match :=
  match goal with
  | |- context [match ?x with _ => _ end] =>
      lazymatch x with
      | context [match _ with _ => _ end] => fail
      | _ => (is_var x; destruct x) || destruct x eqn:?
      end
  end.

#[local] Ltac callbacks :=
  unfold pull_resume, pull_start, readableStreamFromReader,
    try_catch, bind, reader_settle, reader_call, controller_enqueue,
    controller_close, controller_error, close_if_closer, reader_close,
    log, ret, isCloser, lift_unit;
  fold (auto_close options);
  cbn [w_reader w_ctrl w_calls pull cancel].

Lemma free_run_cons m ms (s : world exn R C * option u8array) :
  go (m :: ms) s = go ms (step m s).
Proof. reflexivity. Qed.

Lemma free_run_app a b (s : world exn R C * option u8array) :
  go (a ++ b) s = go b (go a s).
Proof. apply fold_left_app. Qed.

(** One callback, or one change made by the platform, adds no enqueue call
    without a read of its own, no close call on a source without [close],
    and, without [autoClose], no close call without an error call. *)
Lemma free_exec_calls (m : free_move C) (s : world exn R C * option u8array) :
  let calls := w_calls s.1 in
  let calls' := w_calls (step m s).1 in
  (count is_enqueue calls' + pending_reads (step m s).2
   + count is_read calls
   <= count is_enqueue calls + pending_reads s.2 + count is_read calls')%nat
  /\ (close reader = None ->
      count is_source_close calls' = count is_source_close calls)
  /\ (auto_close options = false ->
      count is_source_close calls' + count is_error calls
      <= count is_source_close calls + count is_error calls')%nat
  /\ (count is_error calls <= count is_error calls')%nat
  /\ (count is_source_close calls <= count is_source_close calls')%nat.
Proof.
  destruct s as [[r c calls] pending].
  unfold step, free_exec.
  cbn [fst snd w_calls w_reader w_ctrl].
  destruct m; callbacks; repeat (cbn; break_match); cbn;
    repeat split; intros; try discriminate; try congruence;
    count_calls; lia.
Qed.

Lemma free_run_calls moves (s : world exn R C * option u8array) :
  let calls := w_calls s.1 in
  let calls' := w_calls (go moves s).1 in
  (count is_enqueue calls' + pending_reads (go moves s).2
   + count is_read calls
   <= count is_enqueue calls + pending_reads s.2 + count is_read calls')%nat
  /\ (close reader = None ->
      count is_source_close calls' = count is_source_close calls)
  /\ (auto_close options = false ->
      count is_source_close calls' + count is_error calls
      <= count is_source_close calls + count is_error calls')%nat
  /\ (count is_error calls <= count is_error calls')%nat
  /\ (count is_source_close calls <= count is_source_close calls')%nat.
Proof.
  revert s. induction moves as [|m moves IH]; intros s.
  - cbn. repeat split; intros; lia.
  - rewrite free_run_cons.
    destruct (IH (step m s)) as (A1 & A2 & A3 & A4 & A5).
    destruct (free_exec_calls m s) as (B1 & B2 & B3 & B4 & B5).
    cbv zeta in *. repeat split; intros.
    + lia.
    + rewrite A2, B2 by assumption. reflexivity.
    + specialize (A3 H). specialize (B3 H). lia.
    + lia.
    + lia.
Qed.

End FreeRunFacts.

Section Simulation.

Import Bytes Bridge.

Context {exn R : Type}.
Variable type_error : exn.
Variable reader : Reader exn R.
Variable options : ReadableStreamFromReaderOptions.

Let free := free_run reader (byte_controller type_error) options.

(** Whatever the byte stream makes of the callbacks is one of the ways
    they can run. *)
Lemma exec_simulated (m : move) (s : run_state exn R) :
  exists fm,
    free fm (rs_world s, rs_pending s)
    = (rs_world (exec type_error reader options m s),
       rs_pending (exec type_error reader options m s)).
Proof.
  destruct s as [[r [status cr q] calls] pending outs].
  destruct m; unfold exec;
    cbn [rs_world rs_pending rs_outcomes w_ctrl w_reader w_calls
         st_status st_close_requested st_queue].
  - destruct pending as [buf|]; [by exists []|].
    destruct (accepting _); [by exists [FreeStart]|by exists []].
  - destruct pending as [buf|]; [|by exists []].
    destruct (pull_resume _ _ _ _ _) as [o w'] eqn:Hres.
    exists [FreeSettle;
            Platform (fun _ =>
              match o with
              | Returns _ => w_ctrl w'
              | Throws e => errored (w_ctrl w') e
              end)].
    unfold free, free_run. cbn [fold_left free_exec].
    rewrite Hres. cbn. destruct o, w'; reflexivity.
  - destruct status; try by exists [].
    destruct q as [|x rest]; [by exists []|].
    exists [Platform (fun _ =>
              match rest with
              | [] =>
                  if cr then Build_stream Closed true []
                  else Build_stream Readable false []
              | _ => Build_stream Readable cr rest
              end)].
    reflexivity.
  - destruct status; try by exists [].
    exists [Platform (fun _ => Build_stream Closed cr []); FreeCancel].
    unfold free, free_run, byte_bridge. cbn [fold_left free_exec].
    unfold with_stream. cbn [w_reader w_ctrl w_calls].
    destruct (cancel _ _) as [o w']. reflexivity.
Qed.

Lemma run_simulated (moves : list move) (s : run_state exn R) :
  exists fm,
    free fm (rs_world s, rs_pending s)
    = (rs_world (run type_error reader options moves s),
       rs_pending (run type_error reader options moves s)).
Proof.
  revert s. induction moves as [|m moves IH]; intros s; [by exists []|].
  destruct (exec_simulated m s) as (fm1 & H1).
  destruct (IH (exec type_error reader options m s)) as (fm2 & H2).
  exists (fm1 ++ fm2). unfold free in *.
  rewrite free_run_app, H1. exact H2.
Qed.

End Simulation.



(** X12: over a source that has no [close] method the bridge makes no
    close call: none in any order of its callbacks over any controller,
    whatever the platform does in between, and so none in any run over the
    byte stream. *)
Theorem X12_unclosable_source_never_closed :
  forall (exn R : Type) (reader : Bridge.Reader exn R)
         (options : Bridge.ReadableStreamFromReaderOptions),
    Bridge.close reader = None ->
    (forall (C : Type) (controller : Bridge.Controller exn C)
            (moves : list (Bridge.free_move C))
            (w : Bridge.world exn R C) (pending : option (list byte)),
        Bridge.count Bridge.is_source_close
          (Bridge.w_calls
             (Bridge.free_run reader controller options moves
                (w, pending)).1)
        = Bridge.count Bridge.is_source_close (Bridge.w_calls w))
    /\ (forall (type_error : exn) (moves : list Bridge.move) (r0 : R),
           Bridge.count Bridge.is_source_close
             (Bridge.w_calls
                (Bridge.rs_world
                   (Bridge.run type_error reader options moves
                      (Bridge.start r0))))
           = 0%nat).
Proof.
  intros exn R reader options Hc. split.
  - intros C controller moves w pending.
    destruct (free_run_calls reader controller options moves (w, pending))
      as (_ & H & _).
    exact (H Hc).
  - intros te moves r0.
    destruct (run_simulated te reader options moves (Bridge.start r0))
      as (fm & Hs).
    destruct (free_run_calls reader (Bridge.byte_controller te) options fm
                (Bridge.rs_world (@Bridge.start exn R r0),
                 Bridge.rs_pending (@Bridge.start exn R r0)))
      as (_ & H & _).
    specialize (H Hc). cbv zeta in H. rewrite Hs in H. exact H.
Qed.

Lemma X12_witness :
  Bridge.count Bridge.is_source_close
    (Bridge.w_calls
       (Bridge.rs_world
          (Bridge.run "TypeError"%string (Bridge.scripted None)
             {| Bridge.autoClose := Some true;
                Bridge.chunkSize := Some 4%nat;
                Bridge.strategy := None |}
             [Bridge.StartPull; Bridge.SettleRead; Bridge.StartPull;
              Bridge.Cancel; Bridge.SettleRead]
             (Bridge.start [Bridge.Yield [x61]; Bridge.Fail "boom"]))))
  = 0%nat.
Proof.
  refine (proj2 (X12_unclosable_source_never_closed string _
                   (Bridge.scripted None)
                   {| Bridge.autoClose := Some true;
                      Bridge.chunkSize := Some 4%nat;
                      Bridge.strategy := None |} _)
            "TypeError"%string _ _).
  reflexivity.
Defined.





(** X15: as long as the stream still takes chunks at the end of a run,
    whatever the consumer did, the bridge has made no end-of-stream, error
    or close call, and every read it made was followed by an enqueue call,
    but for the one that may be pending. *)
Theorem X15_open_stream_only_read_enqueue :
  forall (exn R : Type) (type_error : exn) (reader : Bridge.Reader exn R)
         (options : Bridge.ReadableStreamFromReaderOptions)
         (moves : list Bridge.move) (r0 : R),
    Bridge.accepting
      (Bridge.w_ctrl
         (Bridge.rs_world
            (Bridge.run type_error reader options moves (Bridge.start r0))))
    = true ->
    Bridge.count Bridge.is_end
      (Bridge.w_calls
         (Bridge.rs_world
            (Bridge.run type_error reader options moves (Bridge.start r0))))
    = 0%nat
    /\ Bridge.count Bridge.is_error
         (Bridge.w_calls
            (Bridge.rs_world
               (Bridge.run type_error reader options moves
                  (Bridge.start r0))))
       = 0%nat
    /\ Bridge.count Bridge.is_source_close
         (Bridge.w_calls
            (Bridge.rs_world
               (Bridge.run type_error reader options moves
                  (Bridge.start r0))))
       = 0%nat
    /\ (Bridge.count Bridge.is_enqueue
          (Bridge.w_calls
             (Bridge.rs_world
                (Bridge.run type_error reader options moves
                   (Bridge.start r0))))
        + Bridge.pending_reads
            (Bridge.rs_pending
               (Bridge.run type_error reader options moves
                  (Bridge.start r0))))%nat
       = Bridge.count Bridge.is_read
           (Bridge.w_calls
              (Bridge.rs_world
                 (Bridge.run type_error reader options moves
                    (Bridge.start r0)))).
Proof.
  intros exn R te reader options moves r0 Ha.
  apply (run_untouched te reader options moves (Bridge.start r0));
    [|exact Ha].
  intros _. repeat split.
Qed.

Lemma X15_witness :
  (Bridge.count Bridge.is_enqueue
     (Bridge.w_calls
        (Bridge.rs_world
           (Bridge.run "TypeError"%string (Bridge.scripted (Some None))
              {| Bridge.autoClose := None;
                 Bridge.chunkSize := Some 4%nat;
                 Bridge.strategy := None |}
              [Bridge.StartPull; Bridge.SettleRead; Bridge.StartPull;
               Bridge.TakeChunk]
              (Bridge.start [Bridge.Yield [x61]; Bridge.Yield [x62]]))))
   + Bridge.pending_reads
       (Bridge.rs_pending
          (Bridge.run "TypeError"%string (Bridge.scripted (Some None))
             {| Bridge.autoClose := None;
                Bridge.chunkSize := Some 4%nat;
                Bridge.strategy := None |}
             [Bridge.StartPull; Bridge.SettleRead; Bridge.StartPull;
              Bridge.TakeChunk]
             (Bridge.start [Bridge.Yield [x61]; Bridge.Yield [x62]]))))%nat
  = Bridge.count Bridge.is_read
      (Bridge.w_calls
         (Bridge.rs_world
            (Bridge.run "TypeError"%string (Bridge.scripted (Some None))
               {| Bridge.autoClose := None;
                  Bridge.chunkSize := Some 4%nat;
                  Bridge.strategy := None |}
               [Bridge.StartPull; Bridge.SettleRead; Bridge.StartPull;
                Bridge.TakeChunk]
               (Bridge.start [Bridge.Yield [x61]; Bridge.Yield [x62]])))).
Proof.
  apply (X15_open_stream_only_read_enqueue string _ "TypeError"%string
           (Bridge.scripted (Some None))
           {| Bridge.autoClose := None;
              Bridge.chunkSize := Some 4%nat;
              Bridge.strategy := None |}
           [Bridge.StartPull; Bridge.SettleRead; Bridge.StartPull;
            Bridge.TakeChunk]
           [Bridge.Yield [x61]; Bridge.Yield [x62]]).
  reflexivity.
Defined.

(** X16: every enqueue call follows a read of its own. In any order of
    the callbacks, over any controller and whatever the platform does in
    between, the enqueue calls made so far and the read that is pending
    are together no more than the reads made so far; so it is in any run
    over the byte stream. *)
Theorem X16_one_read_per_enqueue :
  forall (exn R : Type) (reader : Bridge.Reader exn R)
         (options : Bridge.ReadableStreamFromReaderOptions),
    (forall (C : Type) (controller : Bridge.Controller exn C)
            (moves : list (Bridge.free_move C)) (r0 : R) (c0 : C),
        (Bridge.count Bridge.is_enqueue
           (Bridge.w_calls
              (Bridge.free_run reader controller options moves
                 (Bridge.Build_world r0 c0 [], None)).1)
         + Bridge.pending_reads
             (Bridge.free_run reader controller options moves
                (Bridge.Build_world r0 c0 [], None)).2
         <= Bridge.count Bridge.is_read
              (Bridge.w_calls
                 (Bridge.free_run reader controller options moves
                    (Bridge.Build_world r0 c0 [], None)).1))%nat)
    /\ (forall (type_error : exn) (moves : list Bridge.move) (r0 : R),
           (Bridge.count Bridge.is_enqueue
              (Bridge.w_calls
                 (Bridge.rs_world
                    (Bridge.run type_error reader options moves
                       (Bridge.start r0))))
            + Bridge.pending_reads
                (Bridge.rs_pending
                   (Bridge.run type_error reader options moves
                      (Bridge.start r0)))
            <= Bridge.count Bridge.is_read
                 (Bridge.w_calls
                    (Bridge.rs_world
                       (Bridge.run type_error reader options moves
                          (Bridge.start r0)))))%nat).
Proof.
  intros exn R reader options. split.
  - intros C controller moves r0 c0.
    destruct (free_run_calls reader controller options moves
                (Bridge.Build_world r0 c0 [], None)) as (H & _).
    cbn in H. lia.
  - intros te moves r0.
    destruct (run_simulated te reader options moves (Bridge.start r0))
      as (fm & Hs).
    destruct (free_run_calls reader (Bridge.byte_controller te) options fm
                (Bridge.rs_world (@Bridge.start exn R r0),
                 Bridge.rs_pending (@Bridge.start exn R r0)))
      as (H & _).
    cbv zeta in H. rewrite Hs in H. cbn in H. lia.
Qed.

(** X17: with [autoClose] set to false the bridge closes the source only
    after it has made an error call: in any order of its callbacks over any
    controller, whatever the platform does in between, the close calls
    added are no more than the error calls added; so in a run over the byte
    stream there are no more close calls than error calls, and none at all
    in a run without failure. *)
Theorem X17_without_auto_close_only_errors_close :
  forall (exn R : Type) (reader : Bridge.Reader exn R)
         (options : Bridge.ReadableStreamFromReaderOptions),
    Bridge.auto_close options = false ->
    (forall (C : Type) (controller : Bridge.Controller exn C)
            (moves : list (Bridge.free_move C))
            (w : Bridge.world exn R C) (pending : option (list byte)),
        (Bridge.count Bridge.is_source_close
           (Bridge.w_calls
              (Bridge.free_run reader controller options moves
                 (w, pending)).1)
         + Bridge.count Bridge.is_error (Bridge.w_calls w)
         <= Bridge.count Bridge.is_source_close (Bridge.w_calls w)
            + Bridge.count Bridge.is_error
                (Bridge.w_calls
                   (Bridge.free_run reader controller options moves
                      (w, pending)).1))%nat)
    /\ (forall (type_error : exn) (moves : list Bridge.move) (r0 : R),
           (Bridge.count Bridge.is_source_close
              (Bridge.w_calls
                 (Bridge.rs_world
                    (Bridge.run type_error reader options moves
                       (Bridge.start r0))))
            <= Bridge.count Bridge.is_error
                 (Bridge.w_calls
                    (Bridge.rs_world
                       (Bridge.run type_error reader options moves
                          (Bridge.start r0)))))%nat).
Proof.
  intros exn R reader options Ha. split.
  - intros C controller moves w pending.
    destruct (free_run_calls reader controller options moves (w, pending))
      as (_ & _ & H & _).
    exact (H Ha).
  - intros te moves r0.
    destruct (run_simulated te reader options moves (Bridge.start r0))
      as (fm & Hs).
    destruct (free_run_calls reader (Bridge.byte_controller te) options fm
                (Bridge.rs_world (@Bridge.start exn R r0),
                 Bridge.rs_pending (@Bridge.start exn R r0)))
      as (_ & _ & H & _).
    specialize (H Ha). cbv zeta in H. rewrite Hs in H. cbn in H. lia.
Qed.

Lemma X17_witness :
  (Bridge.count Bridge.is_source_close
     (Bridge.w_calls
        (Bridge.rs_world
           (Bridge.run "TypeError"%string (Bridge.scripted (Some None))
              {| Bridge.autoClose := Some false;
                 Bridge.chunkSize := Some 4%nat;
                 Bridge.strategy := None |}
              [Bridge.StartPull; Bridge.SettleRead; Bridge.StartPull;
               Bridge.Cancel; Bridge.SettleRead]
              (Bridge.start [Bridge.Yield [x61]]))))
   <= Bridge.count Bridge.is_error
        (Bridge.w_calls
           (Bridge.rs_world
              (Bridge.run "TypeError"%string (Bridge.scripted (Some None))
                 {| Bridge.autoClose := Some false;
                    Bridge.chunkSize := Some 4%nat;
                    Bridge.strategy := None |}
                 [Bridge.StartPull; Bridge.SettleRead; Bridge.StartPull;
                  Bridge.Cancel; Bridge.SettleRead]
                 (Bridge.start [Bridge.Yield [x61]])))))%nat.
Proof.
  refine (proj2 (X17_without_auto_close_only_errors_close string _
                   (Bridge.scripted (Some None))
                   {| Bridge.autoClose := Some false;
                      Bridge.chunkSize := Some 4%nat;
                      Bridge.strategy := None |} _)
            "TypeError"%string _ _).
  reflexivity.
Defined.

(** X18: when the controller's enqueue call throws, the pull does not
    throw: it passes the failure to the controller's error call and then
    closes a closable source, whatever [autoClose] says. *)
Theorem X18_enqueue_failure_is_reported :
  forall (exn R C : Type) (reader : Bridge.Reader exn R)
         (controller : Bridge.Controller exn C)
         (options : Bridge.ReadableStreamFromReaderOptions)
         (w : Bridge.world exn R C) (filled : list byte) (k : Z) (r1 : R)
         (e : exn) (c1 c2 : C) (close_fn : R -> option exn * R),
    Bridge.read reader (Bridge.w_reader w) (Bridge.fresh_chunk options)
    = (Bridge.ReadCount filled k, r1) ->
    Bridge.enqueue controller (Bridge.w_ctrl w) (Bytes.subarray filled 0 k)
    = (Some e, c1) ->
    Bridge.error controller c1 e = (None, c2) ->
    Bridge.close reader = Some close_fn ->
    Bridge.pull (Bridge.readableStreamFromReader reader controller options) w
    = (Bridge.lift_unit (close_fn r1).1,
       Bridge.Build_world (close_fn r1).2 c2
         (Bridge.w_calls w
          ++ [Bridge.CallRead (Bridge.capacity options);
              Bridge.CallEnqueue (Bytes.subarray filled 0 k);
              Bridge.CallError e; Bridge.CallSourceClose])).
Proof.
  intros exn R C reader controller options w filled k r1 e c1 c2 close_fn
    Hr He Herr Hc.
  rewrite (pull_enqueue_rejected reader controller options w filled k r1 e
             c1 c2 Hr He Herr).
  by rewrite Hc.
Qed.

Lemma X18_witness :
  Bridge.pull
    (Bridge.readableStreamFromReader (Bridge.scripted (Some None))
       (Bridge.byte_controller "TypeError"%string)
       {| Bridge.autoClose := Some false;
          Bridge.chunkSize := Some 4%nat;
          Bridge.strategy := None |})
    (Bridge.Build_world [Bridge.Yield [x61]]
       (Bridge.Build_stream Bridge.Closed false []) [])
  = (Bridge.Returns tt,
     Bridge.Build_world [] (Bridge.Build_stream Bridge.Closed false [])
       [Bridge.CallRead 4; Bridge.CallEnqueue [x61];
        Bridge.CallError "TypeError"%string; Bridge.CallSourceClose]).
Proof.
  refine (X18_enqueue_failure_is_reported string _ _
            (Bridge.scripted (Some None))
            (Bridge.byte_controller "TypeError"%string)
            {| Bridge.autoClose := Some false;
               Bridge.chunkSize := Some 4%nat;
               Bridge.strategy := None |}
            (Bridge.Build_world [Bridge.Yield [x61]]
               (Bridge.Build_stream Bridge.Closed false []) [])
            [x61; x00; x00; x00] 1 [] "TypeError"%string
            (Bridge.Build_stream Bridge.Closed false [])
            (Bridge.Build_stream Bridge.Closed false [])
            (fun s => (None, s)) _ _ _ _); reflexivity.
Defined.

(** X19: when the source reports end-of-data and the close call made for
    [autoClose] throws, the pull passes that failure to the controller's
    error call, calls close a second time, and makes no end-of-stream call;
    the pull ends the way the second close call ends. *)
Theorem X19_close_failure_at_end_is_reported :
  forall (exn R C : Type) (reader : Bridge.Reader exn R)
         (controller : Bridge.Controller exn C)
         (options : Bridge.ReadableStreamFromReaderOptions)
         (w : Bridge.world exn R C)
         (r1 r2 : R) (close_fn : R -> option exn * R) (e : exn) (c2 : C),
    Bridge.read reader (Bridge.w_reader w) (Bridge.fresh_chunk options)
    = (Bridge.ReadNull, r1) ->
    Bridge.close reader = Some close_fn ->
    Bridge.auto_close options = true ->
    close_fn r1 = (Some e, r2) ->
    Bridge.error controller (Bridge.w_ctrl w) e = (None, c2) ->
    Bridge.pull (Bridge.readableStreamFromReader reader controller options) w
    = (Bridge.lift_unit (close_fn r2).1,
       Bridge.Build_world (close_fn r2).2 c2
         (Bridge.w_calls w
          ++ [Bridge.CallRead (Bridge.capacity options);
              Bridge.CallSourceClose; Bridge.CallError e;
              Bridge.CallSourceClose])).
Proof.
  intros exn R C reader controller options w r1 r2 close_fn e c2
    Hr Hc Ha He Herr.
  exact (pull_null_close_throws reader controller options w r1 close_fn e
           r2 c2 Hr Hc Ha He Herr).
Qed.

Lemma X19_witness :
  Bridge.pull
    (Bridge.byte_bridge "TypeError"%string
       (Bridge.scripted (Some (Some "close failed"%string)))
       {| Bridge.autoClose := None;
          Bridge.chunkSize := Some 4%nat;
          Bridge.strategy := None |})
    (Bridge.rs_world (Bridge.start []))
  = (Bridge.Throws "close failed"%string,
     Bridge.Build_world []
       (Bridge.Build_stream (Bridge.Errored "close failed"%string) false [])
       [Bridge.CallRead 4; Bridge.CallSourceClose;
        Bridge.CallError "close failed"%string; Bridge.CallSourceClose]).
Proof.
  refine (X19_close_failure_at_end_is_reported string _ _
            (Bridge.scripted (Some (Some "close failed"%string)))
            (Bridge.byte_controller "TypeError"%string)
            {| Bridge.autoClose := None;
               Bridge.chunkSize := Some 4%nat;
               Bridge.strategy := None |}
            (Bridge.rs_world (Bridge.start [])) [] []
            (fun s => (Some "close failed"%string, s))
            "close failed"%string
            (Bridge.Build_stream (Bridge.Errored "close failed"%string)
               false [])
            _ _ _ _ _); reflexivity.
Defined.

(** ** Query extraction *)

Section QueryFacts.

Import Query.
Local Open Scope string_scope.

Variable proto_accessor : bool.

Lemma obj_get_put o k v k' :
  obj_get (obj_put o k v) k' = if String.eqb k k' then Some v else obj_get o k'.
Proof.
  induction o as [|[k0 v0] o IH]; simpl.
  - reflexivity.
  - destruct (String.eqb k0 k) eqn:E0; simpl.
    + apply String.eqb_eq in E0. subst k0.
      destruct (String.eqb k k'); reflexivity.
    + rewrite IH. destruct (String.eqb k0 k') eqn:E1; [|reflexivity].
      apply String.eqb_eq in E1. subst k0. by rewrite String.eqb_sym, E0.
Qed.

Lemma obj_get_set o k v k' :
  obj_get (obj_set proto_accessor o k v) k'
  = if negb (proto_accessor && String.eqb k "__proto__") && String.eqb k k'
    then Some v else obj_get o k'.
Proof.
  unfold obj_set.
  destruct (proto_accessor && String.eqb k "__proto__"); simpl;
    [reflexivity|].
  apply obj_get_put.
Qed.

Lemma obj_get_app l1 l2 k :
  obj_get (l1 ++ l2)%list k
  = match obj_get l1 k with Some v => Some v | None => obj_get l2 k end.
Proof.
  induction l1 as [|[k0 v0] l1 IH]; simpl; [reflexivity|].
  destruct (String.eqb k0 k); [reflexivity|exact IH].
Qed.

Lemma fold_set_get (l o : entries) (k : string) :
  proto_accessor && String.eqb k "__proto__" = false ->
  obj_get (fold_left (fun o kv => obj_set proto_accessor o kv.1 kv.2) l o) k
  = match last_value l k with Some v => Some v | None => obj_get o k end.
Proof.
  intros Hk. revert o. induction l as [|[k0 v0] l IH]; intros o.
  - reflexivity.
  - cbn [fold_left fst snd]. rewrite IH. unfold last_value.
    cbn [rev]. rewrite obj_get_app. cbn [obj_get].
    destruct (obj_get (rev l) k); [reflexivity|].
    rewrite obj_get_set.
    destruct (String.eqb k0 k) eqn:E.
    + apply String.eqb_eq in E. subst k0. by rewrite Hk.
    + by rewrite andb_false_r.
Qed.

Lemma fold_set_no_proto (l o : entries) :
  proto_accessor = true ->
  obj_get o "__proto__" = None ->
  obj_get (fold_left (fun o kv => obj_set proto_accessor o kv.1 kv.2) l o)
    "__proto__" = None.
Proof.
  intros Hp. revert o. induction l as [|[k0 v0] l IH]; intros o Ho;
    [exact Ho|].
  cbn [fold_left fst snd]. apply IH. rewrite obj_get_set, Hp.
  destruct (String.eqb k0 "__proto__"); simpl; exact Ho.
Qed.

Lemma obj_put_keys o k v :
  map fst (obj_put o k v)
  = if existsb (String.eqb k) (map fst o) then map fst o
    else (map fst o ++ [k])%list.
Proof.
  induction o as [|[k0 v0] o IH]; simpl; [reflexivity|].
  destruct (String.eqb k0 k) eqn:E; simpl.
  - rewrite String.eqb_sym, E. reflexivity.
  - rewrite String.eqb_sym, E, IH. simpl.
    destruct (existsb (String.eqb k) (map fst o)); reflexivity.
Qed.

Lemma obj_put_nodup o k v :
  NoDup (map fst o) -> NoDup (map fst (obj_put o k v)).
Proof.
  intros H. rewrite obj_put_keys.
  destruct (existsb (String.eqb k) (map fst o)) eqn:E; [exact H|].
  apply NoDup_app. split; [exact H|]. split.
  - intros x Hx Hk. apply list_elem_of_In in Hk.
    destruct Hk as [Hk|[]]. subst x.
    assert (existsb (String.eqb k) (map fst o) = true); [|congruence].
    apply existsb_exists. exists k. split; [by apply list_elem_of_In|].
    apply String.eqb_refl.
  - apply NoDup_singleton.
Qed.

Lemma fold_set_nodup (l o : entries) :
  NoDup (map fst o) ->
  NoDup (map fst
           (fold_left (fun o kv => obj_set proto_accessor o kv.1 kv.2) l o)).
Proof.
  revert o. induction l as [|[k0 v0] l IH]; intros o Ho; [exact Ho|].
  cbn [fold_left fst snd]. apply IH. unfold obj_set.
  destruct (proto_accessor && String.eqb k0 "__proto__");
    [exact Ho|by apply obj_put_nodup].
Qed.

Lemma getQuery_contents isRouterContext ctx options :
  contents (getQuery proto_accessor isRouterContext ctx options)
  = fold_left (fun o kv => obj_set proto_accessor o kv.1 kv.2)
      (assignments isRouterContext ctx options) [].
Proof.
  unfold getQuery, assignments, Object_assign. rewrite fold_left_app.
  destruct (mergeParams options && isRouterContext ctx);
    destruct (asMap options); reflexivity.
Qed.

End QueryFacts.

(** X20: in the result of [getQuery], as a record or as a map, the value
    of a key is the value of the last assignment made for it, where the
    route parameters (when they are merged) are assigned before the query
    parameters. The one exception is the key [__proto__] on a runtime whose
    [Object.prototype] has the [__proto__] accessor: there it never gets a
    value; on Deno, which removes the accessor, it is a key like any
    other. *)
Theorem X20_getQuery_last_assignment_wins :
  forall (proto_accessor : bool)
         (isRouterContext : Query.Context -> bool) (ctx : Query.Context)
         (options : Query.GetParamsOptions) (k : string),
    Query.obj_get
      (Query.contents
         (Query.getQuery proto_accessor isRouterContext ctx options))
      k
    = if proto_accessor && String.eqb k "__proto__" then None
      else Query.last_value
             (Query.assignments isRouterContext ctx options) k.
Proof.
  intros pa isR ctx options k. rewrite getQuery_contents.
  destruct (pa && String.eqb k "__proto__") eqn:Hk.
  - apply andb_prop in Hk as [Hp Hk].
    apply String.eqb_eq in Hk. subst k. by apply fold_set_no_proto.
  - rewrite fold_set_get by exact Hk.
    destruct (Query.last_value _ k); reflexivity.
Qed.

(** X21: the result of [getQuery] holds every key once, however often the
    key occurs in the query string or in both the route and the query. *)
Theorem X21_getQuery_keys_unique :
  forall (proto_accessor : bool)
         (isRouterContext : Query.Context -> bool) (ctx : Query.Context)
         (options : Query.GetParamsOptions),
    NoDup (map fst
             (Query.contents
                (Query.getQuery proto_accessor isRouterContext ctx
                   options))).
Proof.
  intros pa isR ctx options. rewrite getQuery_contents.
  apply fold_set_nodup. constructor.
Qed.

(** X22: a key present in the query string takes the value of its last
    occurrence there, whether or not route parameters are merged and
    whatever value the route gives the same key; the key [__proto__] is
    excepted only where [Object.prototype] has the [__proto__] accessor. *)
Theorem X22_getQuery_query_overrides_params :
  forall (proto_accessor : bool)
         (isRouterContext : Query.Context -> bool) (ctx : Query.Context)
         (options : Query.GetParamsOptions) (k v : string),
    proto_accessor && String.eqb k "__proto__" = false ->
    Query.last_value (Query.searchParams ctx) k = Some v ->
    Query.obj_get
      (Query.contents
         (Query.getQuery proto_accessor isRouterContext ctx options))
      k
    = Some v.
Proof.
  intros pa isR ctx options k v Hk Hv.
  rewrite getQuery_contents. rewrite fold_set_get by exact Hk.
  unfold Query.assignments, Query.last_value in *.
  rewrite rev_app_distr, obj_get_app, Hv. reflexivity.
Qed.

Lemma X22_witness :
  Query.obj_get
    (Query.contents
       (Query.getQuery false (fun _ => true)
          {| Query.params := [("__proto__", "7")]%string;
             Query.searchParams :=
               [("__proto__", "1"); ("q", "x"); ("__proto__", "2")]%string |}
          {| Query.mergeParams := true; Query.asMap := false |}))
    "__proto__"
  = Some "2"%string.
Proof.
  apply (X22_getQuery_query_overrides_params false (fun _ => true)
           {| Query.params := [("__proto__", "7")]%string;
              Query.searchParams :=
                [("__proto__", "1"); ("q", "x"); ("__proto__", "2")]%string |}
           {| Query.mergeParams := true; Query.asMap := false |}
           "__proto__"%string "2"%string); reflexivity.
Defined.

(** ** HTML sniffing *)

Section HtmlFacts.

Import Html.
Local Open Scope string_scope.

Lemma skip_spaces_app_spaces ws s :
  all_spaces ws = true -> skip_spaces (ws ++ s) = skip_spaces s.
Proof.
  induction ws as [|c ws IH]; [reflexivity|].
  unfold all_spaces. cbn [list_ascii_of_string forallb]. intros H.
  apply andb_true_iff in H as [Hc Hw].
  cbn [append skip_spaces]. rewrite Hc. by apply IH.
Qed.

Lemma skip_spaces_app s t :
  skip_spaces s <> "" -> skip_spaces (s ++ t) = skip_spaces s ++ t.
Proof.
  induction s as [|c s IH]; [done|].
  cbn [append skip_spaces]. destruct (is_space c); [exact IH|reflexivity].
Qed.

Lemma starts_with_ci_app lit s t :
  starts_with_ci lit s = true -> starts_with_ci lit (s ++ t) = true.
Proof.
  revert s. induction lit as [|a lit IH]; intros s; [reflexivity|].
  destruct s as [|b s]; [discriminate|]. cbn [append starts_with_ci].
  intros H. apply andb_true_iff in H as [Ha Hl].
  by rewrite Ha, (IH s Hl).
Qed.

Lemma fold_case_idempotent c : fold_case (fold_case c) = fold_case c.
Proof. destruct c as [[] [] [] [] [] [] [] []]; reflexivity. Qed.

Lemma is_space_fold_case c : is_space (fold_case c) = is_space c.
Proof. destruct c as [[] [] [] [] [] [] [] []]; reflexivity. Qed.

Lemma fold_case_lt c : Ascii.eqb (fold_case c) "<" = Ascii.eqb c "<".
Proof. destruct c as [[] [] [] [] [] [] [] []]; reflexivity. Qed.

Lemma skip_spaces_upper s : skip_spaces (upper s) = upper (skip_spaces s).
Proof.
  induction s as [|c s IH]; [reflexivity|].
  cbn [upper skip_spaces]. rewrite is_space_fold_case.
  destruct (is_space c); [exact IH|reflexivity].
Qed.

Lemma starts_with_ci_upper lit s :
  starts_with_ci lit (upper s) = starts_with_ci lit s.
Proof.
  revert s. induction lit as [|a lit IH]; intros s; [reflexivity|].
  destruct s as [|b s]; [reflexivity|].
  cbn [upper starts_with_ci]. by rewrite fold_case_idempotent, IH.
Qed.

End HtmlFacts.

(** X23: [isHtml] ignores leading white space: putting any run of
    white-space characters in front of a string does not change the
    answer. *)
Theorem X23_isHtml_ignores_leading_space :
  forall ws s : string,
    Html.all_spaces ws = true -> Html.isHtml (ws ++ s) = Html.isHtml s.
Proof.
  intros ws s H. unfold Html.isHtml. by rewrite skip_spaces_app_spaces.
Qed.

Lemma X23_witness :
  Html.isHtml ("  " ++ "<html>") = Html.isHtml "<html>".
Proof.
  apply (X23_isHtml_ignores_leading_space "  " "<html>"). reflexivity.
Defined.

(** X24: [isHtml] looks at the start of the string only: a string it
    accepts stays accepted whatever follows it, so [<bodyguard] is taken
    for HTML like [<body]. *)
Theorem X24_isHtml_reads_prefix_only :
  forall s t : string,
    Html.isHtml s = true -> Html.isHtml (s ++ t) = true.
Proof.
  intros s t. unfold Html.isHtml.
  destruct (Html.skip_spaces s) as [|c rest] eqn:E; [discriminate|].
  rewrite skip_spaces_app by (rewrite E; discriminate). rewrite E.
  cbn [append].
  destruct (Ascii.eqb c "<") eqn:Ec.
  - apply Ascii.eqb_eq in Ec. subst c. intros H.
    apply orb_true_iff in H as [H|H];
      [apply orb_true_iff in H as [H|H]|];
      rewrite (starts_with_ci_app _ _ t H); by rewrite ?orb_true_r.
  - intros H. exfalso.
    destruct c as [[] [] [] [] [] [] [] []]; discriminate.
Qed.

Lemma X24_witness : Html.isHtml ("<body" ++ "guard") = true.
Proof.
  apply (X24_isHtml_reads_prefix_only "<body" "guard"). reflexivity.
Defined.

(** X25: [isHtml] ignores the case of ASCII letters: a string and the same
    string with its letters in upper case get the same answer. *)
Theorem X25_isHtml_ignores_case :
  forall s : string, Html.isHtml (Html.upper s) = Html.isHtml s.
Proof.
  intros s. unfold Html.isHtml. rewrite skip_spaces_upper.
  destruct (Html.skip_spaces s) as [|c rest]; [reflexivity|].
  cbn [Html.upper].
  pose proof (fold_case_lt c) as Hc.
  destruct (Ascii.eqb c "<") eqn:Ec.
  - apply Ascii.eqb_eq in Ec. subst c.
    change (Html.fold_case "<") with "<"%char. cbv iota.
    by rewrite !starts_with_ci_upper.
  - apply Ascii.eqb_neq in Ec. apply Ascii.eqb_neq in Hc.
    transitivity false.
    + destruct (Html.fold_case c) as [[] [] [] [] [] [] [] []];
        try reflexivity.
      by destruct Hc.
    + destruct c as [[] [] [] [] [] [] [] []]; try reflexivity.
      by destruct Ec.
Qed.

(** ** Status classification *)

(** X26: no status is classified both as an error status and as a
    redirect status, and a status that [util.ts] does not name is
    neither. *)
Theorem X26_status_never_error_and_redirect :
  forall s : StatusClass.Status,
    StatusClass.isErrorStatus s && StatusClass.isRedirectStatus s = false
    /\ StatusClass.isErrorStatus StatusClass.OtherStatus = false
    /\ StatusClass.isRedirectStatus StatusClass.OtherStatus = false.
Proof.
  intros s. split; [|split; reflexivity].
  destruct s; reflexivity.
Qed.
